(** * intergo: internationalized strings keyed by [language_LOCALE]

    A shallow embedding of [intergo.go] and of the part of Go's [fmt] and
    [unicode/utf8] packages that [parseLocaleString] runs through
    [fmt.Sscanf(locale, "%2s_%2s", &lang, &local)].

    Go strings are byte sequences: they are Rocq [string]s, one [ascii] per
    byte.  The scanner reads them rune by rune, so the UTF-8 decoder and
    encoder are part of the model. *)

From Stdlib Require Import ZArith String Ascii List Lia Bool.
From Equations Require Import Equations.
From stdpp Require Import gmap strings list fin_maps.

Local Open Scope Z_scope.

(** ** Bytes and runes *)

Abbreviation byte := Z.
Abbreviation rune := Z.

Definition bytes_of_string (s : string) : list byte :=
  map (fun a => Z.of_N (N_of_ascii a)) (list_ascii_of_string s).

Definition string_of_bytes (p : list byte) : string :=
  string_of_list_ascii (map (fun b => ascii_of_N (Z.to_N b)) p).

(** ** unicode/utf8 *)

Module utf8.

Definition RuneError : rune := 0xFFFD.
Definition MaxRune : rune := 0x10FFFF.
Definition surrogateMin : rune := 0xD800.
Definition surrogateMax : rune := 0xDFFF.

Definition t2 : byte := 0xC0.
Definition t3 : byte := 0xE0.
Definition t4 : byte := 0xF0.
Definition tx : byte := 0x80.
Definition maskx : byte := 0x3F.
Definition mask2 : byte := 0x1F.
Definition mask3 : byte := 0x0F.
Definition mask4 : byte := 0x07.

Definition rune1Max : rune := 0x7F.
Definition rune2Max : rune := 0x7FF.
Definition rune3Max : rune := 0xFFFF.

Definition locb : byte := 0x80.
Definition hicb : byte := 0xBF.

(* The codes of the [first] table: the low three bits are the size of the
   encoding, the high four bits index [acceptRanges]. *)
Definition xx : Z := 0xF1.
Definition as_ : Z := 0xF0.
Definition s1 : Z := 0x02.
Definition s2 : Z := 0x13.
Definition s3 : Z := 0x03.
Definition s4 : Z := 0x23.
Definition s5 : Z := 0x34.
Definition s6 : Z := 0x04.
Definition s7 : Z := 0x44.

(* first[p0]: 0x00-0x7F as, 0x80-0xC1 xx, 0xC2-0xDF s1, 0xE0 s2,
   0xE1-0xEC s3, 0xED s4, 0xEE-0xEF s3, 0xF0 s5, 0xF1-0xF3 s6, 0xF4 s7,
   0xF5-0xFF xx. *)
Definition first (p0 : byte) : Z :=
  if p0 <? 0x80 then as_
  else if p0 <? 0xC2 then xx
  else if p0 <? 0xE0 then s1
  else if p0 =? 0xE0 then s2
  else if p0 <? 0xED then s3
  else if p0 =? 0xED then s4
  else if p0 <? 0xF0 then s3
  else if p0 =? 0xF0 then s5
  else if p0 <? 0xF4 then s6
  else if p0 =? 0xF4 then s7
  else xx.

Definition acceptRanges (i : Z) : byte * byte :=
  if i =? 0 then (locb, hicb)
  else if i =? 1 then (0xA0, hicb)
  else if i =? 2 then (locb, 0x9F)
  else if i =? 3 then (0x90, hicb)
  else if i =? 4 then (locb, 0x8F)
  else (0, 0).

(* func DecodeRune(p []byte) (r rune, size int).  For x >= as the source
   selects between p[0] and RuneError with a mask made of the low bit of x,
   which is set for xx and clear for as. *)
Definition DecodeRune (p : list byte) : rune * nat :=
  match p with
  | [] => (RuneError, 0%nat)
  | p0 :: t =>
    let x := first p0 in
    if as_ <=? x then
      ((if x =? xx then RuneError else p0), 1%nat)
    else
      let sz := Z.land x 7 in
      let '(lo, hi) := acceptRanges (Z.shiftr x 4) in
      if Z.of_nat (length p) <? sz then (RuneError, 1%nat)
      else match t with
      | [] => (RuneError, 1%nat)
      | b1 :: t1 =>
        if (b1 <? lo) || (hi <? b1) then (RuneError, 1%nat)
        else if sz <=? 2 then
          (Z.lor (Z.shiftl (Z.land p0 mask2) 6) (Z.land b1 maskx), 2%nat)
        else match t1 with
        | [] => (RuneError, 1%nat)
        | b2 :: t2 =>
          if (b2 <? locb) || (hicb <? b2) then (RuneError, 1%nat)
          else if sz <=? 3 then
            (Z.lor (Z.lor (Z.shiftl (Z.land p0 mask3) 12)
                          (Z.shiftl (Z.land b1 maskx) 6))
                   (Z.land b2 maskx), 3%nat)
          else match t2 with
          | [] => (RuneError, 1%nat)
          | b3 :: _ =>
            if (b3 <? locb) || (hicb <? b3) then (RuneError, 1%nat)
            else
              (Z.lor (Z.lor (Z.lor (Z.shiftl (Z.land p0 mask4) 18)
                                   (Z.shiftl (Z.land b1 maskx) 12))
                            (Z.shiftl (Z.land b2 maskx) 6))
                     (Z.land b3 maskx), 4%nat)
          end
        end
      end
  end.

(* func ValidRune(r rune) bool *)
Definition ValidRune (r : rune) : bool :=
  if (0 <=? r) && (r <? surrogateMin) then true
  else if (surrogateMax <? r) && (r <=? MaxRune) then true
  else false.

(* byte(x): conversion of a rune to a byte keeps the low eight bits. *)
Definition to_byte (x : Z) : byte := Z.land x 0xFF.

(* func AppendRune(p []byte, r rune) []byte, as the bytes appended.  The
   runes of this development are never negative, so uint32(r) is r. *)
Definition AppendRune (r : rune) : list byte :=
  if r <=? rune1Max then [to_byte r]
  else if r <=? rune2Max then
    [Z.lor t2 (to_byte (Z.shiftr r 6)); Z.lor tx (Z.land (to_byte r) maskx)]
  else
    let enc3 (r : rune) :=
      [Z.lor t3 (to_byte (Z.shiftr r 12));
       Z.lor tx (Z.land (to_byte (Z.shiftr r 6)) maskx);
       Z.lor tx (Z.land (to_byte r) maskx)] in
    if (MaxRune <? r) || ((surrogateMin <=? r) && (r <=? surrogateMax))
    then enc3 RuneError
    else if r <=? rune3Max then enc3 r
    else
      [Z.lor t4 (to_byte (Z.shiftr r 18));
       Z.lor tx (Z.land (to_byte (Z.shiftr r 12)) maskx);
       Z.lor tx (Z.land (to_byte (Z.shiftr r 6)) maskx);
       Z.lor tx (Z.land (to_byte r) maskx)].

End utf8.

(** The runes a reader delivers from a byte string: [readRune.ReadRune]
    decodes one rune at a time with [utf8.DecodeRune], an invalid byte giving
    [RuneError] of width one and the bytes after it being read again. *)
Fixpoint runes (p : list byte) : list rune :=
  match p with
  | [] => []
  | _ :: t =>
    let '(r, size) := utf8.DecodeRune p in
    r :: match size, t with
         | 2%nat, _ :: t1 => runes t1
         | 3%nat, _ :: _ :: t2 => runes t2
         | 4%nat, _ :: _ :: _ :: t3 => runes t3
         | _, _ => runes t
         end
  end.

(* The bytes a buffer holds after writeRune of each rune of [l]. *)
Definition encode (l : list rune) : list byte := concat (map utf8.AppendRune l).

(** ** Errors

    The error values of this program: the sentinels [io.EOF] and
    [io.ErrUnexpectedEOF], and errors made from a message ([errors.New], and
    [fmt.Errorf] once its operands are formatted). *)

Inductive error :=
| io_EOF
| io_ErrUnexpectedEOF
| errors_New (msg : string).

(* func (e error) Error() string *)
Definition Error (e : error) : string :=
  match e with
  | io_EOF => "EOF"
  | io_ErrUnexpectedEOF => "unexpected EOF"
  | errors_New msg => msg
  end.

(** ** fmt: the scanner behind [Sscanf] *)

Module fmt.

Definition hugeWid : Z := Z.shiftl 1 30.

(* type ss struct: [rs] holds the runes the reader has not delivered yet. *)
Record ss := mkss {
  rs : list rune;
  buf : list byte;
  count : Z;
  atEOF : bool;
  nlIsSpace : bool;
  nlIsEnd : bool;
  argLimit : Z;
  limit : Z;
  maxWid : Z }.

(* A scanning step either panics with an error (recovered by [errorHandler]
   in [doScanf]) or returns a value and the next state. *)
Definition scan (A : Type) : Type := ss -> error + A * ss.

Definition ret {A} (a : A) : scan A := fun s => inr (a, s).
Definition bind {A B} (m : scan A) (k : A -> scan B) : scan B :=
  fun s => match m s with
           | inl e => inl e
           | inr (a, s') => k a s'
           end.
Definition panic {A} (e : error) : scan A := fun _ => inl e.

Notation "x <- m ;; k" := (bind m (fun x => k))
  (at level 100, m at next level, right associativity).
Notation "m ;;; k" := (bind m (fun _ => k))
  (at level 100, right associativity).

(* func (s *ss) errorString(err string) *)
Definition errorString {A} (err : string) : scan A := panic (errors_New err).

(* func newScanState(r io.Reader, nlIsSpace, nlIsEnd bool) *)
Definition newScanState (r : list rune) (nlIsSpace nlIsEnd : bool) : ss :=
  {| rs := r; buf := []; count := 0; atEOF := false;
     nlIsSpace := nlIsSpace; nlIsEnd := nlIsEnd;
     argLimit := hugeWid; limit := hugeWid; maxWid := hugeWid |}.

(* func (s *ss) ReadRune(); func (s *ss) getRune(): [None] is eof.  A string
   reader fails with io.EOF only. *)
Definition getRune : scan (option rune) := fun s =>
  if atEOF s || (argLimit s <=? count s) then inr (None, s)
  else match rs s with
       | [] =>
         inr (None, mkss [] (buf s) (count s) true (nlIsSpace s) (nlIsEnd s)
                         (argLimit s) (limit s) (maxWid s))
       | r :: rest =>
         inr (Some r,
              mkss rest (buf s) (count s + 1)
                   (if nlIsEnd s && (r =? 10) then true else atEOF s)
                   (nlIsSpace s) (nlIsEnd s) (argLimit s) (limit s) (maxWid s))
       end.

(* func (s *ss) UnreadRune(): [r] is the rune read last. *)
Definition UnreadRune (r : rune) : scan unit := fun s =>
  inr (tt, mkss (r :: rs s) (buf s) (count s - 1) false (nlIsSpace s) (nlIsEnd s)
                (argLimit s) (limit s) (maxWid s)).

(* func (s *ss) mustReadRune() *)
Definition mustReadRune : scan rune :=
  r <- getRune ;;
  match r with
  | None => panic io_ErrUnexpectedEOF
  | Some r => ret r
  end.

(* func (s *ss) notEOF() *)
Definition notEOF : scan unit :=
  r <- getRune ;;
  match r with
  | None => panic io_EOF
  | Some r => UnreadRune r
  end.

(* func (s *ss) peek(ok string) bool *)
Definition peek (ok : list rune) : scan bool :=
  r <- getRune ;;
  match r with
  | None => ret false
  | Some r => UnreadRune r ;;; ret (existsb (Z.eqb r) ok)
  end.

(* var space = [][2]uint16{...}; func isSpace(r rune) bool *)
Definition space : list (Z * Z) :=
  [(0x0009, 0x000d); (0x0020, 0x0020); (0x0085, 0x0085); (0x00a0, 0x00a0);
   (0x1680, 0x1680); (0x2000, 0x200a); (0x2028, 0x2029); (0x202f, 0x202f);
   (0x205f, 0x205f); (0x3000, 0x3000)].

Fixpoint isSpace_ranges (rx : Z) (l : list (Z * Z)) : bool :=
  match l with
  | [] => false
  | (lo, hi) :: l' =>
    if rx <? lo then false
    else if rx <=? hi then true
    else isSpace_ranges rx l'
  end.

Definition isSpace (r : rune) : bool :=
  if Z.shiftl 1 16 <=? r then false else isSpace_ranges r space.

Definition notSpace (r : rune) : bool := negb (isSpace r).

(* One turn of the loop of [SkipSpace]: [true] to go round again. *)
Definition SkipSpace_body : scan bool :=
  r <- getRune ;;
  match r with
  | None => ret false
  | Some r =>
    crlf <- (if r =? 13 then peek [10] else ret false) ;;
    if crlf then ret true
    else if r =? 10 then
      fun s => if nlIsSpace s then ret true s
               else errorString "unexpected newline" s
    else if negb (isSpace r) then UnreadRune r ;;; ret false
    else ret true
  end.

(* Runs the primitive steps of the context, one goal per path. *)
Ltac scan_cases :=
  repeat first
    [ progress (cbv beta iota delta
        [bind ret panic errorString getRune UnreadRune mustReadRune notEOF
         peek] in * )
    | progress (simpl in * )
    | case_match ];
  simplify_eq/=.

(* The value of a call together with the equation that names it, for the
   termination proofs of the loops below. *)
Definition inspect {A : Type} (x : A) : {y : A | x = y} := exist _ x eq_refl.

(* func (s *ss) SkipSpace() *)
Equations? SkipSpace (s : ss) : error + unit * ss by wf (length (rs s)) lt :=
  SkipSpace s with inspect (SkipSpace_body s) := {
    | exist _ (inl e) _ => inl e
    | exist _ (inr (false, s')) _ => inr (tt, s')
    | exist _ (inr (true, s')) H => SkipSpace s' }.
Proof.
  unfold SkipSpace_body in H. scan_cases; lia.
Qed.

(* func (b *buffer) writeRune(r rune) on s.buf *)
Definition writeRune (r : rune) : scan unit := fun s =>
  inr (tt, mkss (rs s) (buf s ++ utf8.AppendRune r) (count s) (atEOF s)
                (nlIsSpace s) (nlIsEnd s) (argLimit s) (limit s) (maxWid s)).

(* One turn of the loop of [token]: [true] to go round again. *)
Definition token_body (f : rune -> bool) : scan bool :=
  r <- getRune ;;
  match r with
  | None => ret false
  | Some r =>
    if negb (f r) then UnreadRune r ;;; ret false
    else writeRune r ;;; ret true
  end.

Equations? token_loop (f : rune -> bool) (s : ss) : error + list byte * ss
  by wf (length (rs s)) lt :=
  token_loop f s with inspect (token_body f s) := {
    | exist _ (inl e) _ => inl e
    | exist _ (inr (false, s')) _ => inr (buf s', s')
    | exist _ (inr (true, s')) H => token_loop f s' }.
Proof.
  unfold token_body, writeRune in H. scan_cases; lia.
Qed.

(* func (s *ss) token(skipSpace bool, f func(rune) bool) []byte *)
Definition token (skipSpace : bool) (f : rune -> bool) : scan (list byte) :=
  (if skipSpace then SkipSpace else ret tt) ;;; token_loop f.

(* func (s *ss) convertString(verb rune) (str string), for the verb 's':
   okVerb accepts it, and the default case of the switch runs. *)
Definition convertString : scan string :=
  SkipSpace ;;;
  notEOF ;;;
  tok <- token true notSpace ;;
  ret (string_of_bytes tok).

(* func (s *ss) scanOne(verb rune, arg any), for arg of type *string *)
Definition scanOne : scan string := fun s =>
  convertString (mkss (rs s) [] (count s) (atEOF s) (nlIsSpace s) (nlIsEnd s)
                      (argLimit s) (limit s) (maxWid s)).

Definition set_maxWid (w : Z) : scan unit := fun s =>
  inr (tt, mkss (rs s) (buf s) (count s) (atEOF s) (nlIsSpace s) (nlIsEnd s)
                (argLimit s) (limit s) w).

Definition set_argLimit (f : ss -> Z) : scan unit := fun s =>
  inr (tt, mkss (rs s) (buf s) (count s) (atEOF s) (nlIsSpace s) (nlIsEnd s)
                (f s) (limit s) (maxWid s)).

(* The turn of the loop of [doScanf] at a directive %<wid>s with a *string
   operand left: parsenum gives the width, the verb is not 'c' so white
   space is skipped, the operand is scanned under argLimit. *)
Definition doScanf_verb_s (wid : Z) : scan string :=
  set_maxWid wid ;;;
  SkipSpace ;;;
  set_argLimit limit ;;;
  set_argLimit (fun s => if count s + maxWid s <? argLimit s
                         then count s + maxWid s else argLimit s) ;;;
  v <- scanOne ;;
  set_argLimit limit ;;;
  ret v.

(* func (s *ss) advance(format string) (i int) on a format that starts with
   the literal [fmtc] followed by a verb: the literal must be the next rune
   of the input, and -1 (here [false]) reports a mismatch. *)
Definition advance_literal (fmtc : rune) : scan bool :=
  inputc <- mustReadRune ;;
  if negb (fmtc =? inputc) then UnreadRune inputc ;;; ret false
  else ret true.

(* The turn of the loop of [doScanf] at a literal of the format. *)
Definition doScanf_literal (fmtc : rune) : scan unit :=
  w <- advance_literal fmtc ;;
  if w then ret tt else errorString "input does not match format".

(* func (s *ss) doScanf(format string, a []any) (numProcessed int, err error)
   for the format "%2s_%2s" and two *string operands, whose values it
   returns too.  A panic of a step is what errorHandler stores in err; an
   operand not reached keeps its value, the empty string. *)
Definition doScanf_2s_2s (s : ss) : Z * string * string * option error :=
  match doScanf_verb_s 2 s with
  | inl e => (0, "", "", Some e)
  | inr (lang, s) =>
    match doScanf_literal 95 s with
    | inl e => (1, lang, "", Some e)
    | inr (_, s) =>
      match doScanf_verb_s 2 s with
      | inl e => (1, lang, "", Some e)
      | inr (local, _) => (2, lang, local, None)
      end
    end
  end.

(* func Sscanf(str string, format string, a ...any) (n int, err error), at
   fmt.Sscanf(str, "%2s_%2s", &lang, &local). *)
Definition Sscanf_2s_2s (str : string) : Z * string * string * option error :=
  doScanf_2s_2s (newScanState (runes (bytes_of_string str)) false false).

(** Conditions on the state of the scanner, for the properties below. *)

(* No rune can be read: the input is at its end, or the width of the
   operand is used up. *)
Definition blocked (s : ss) : bool := atEOF s || (argLimit s <=? count s).

(* The next read gives a rune, and that rune fails [f]. *)
Definition stops_at (f : rune -> bool) (s : ss) : Prop :=
  atEOF s = false /\ count s < argLimit s /\
  exists r rest, rs s = r :: rest /\ f r = false.

Definition same_conf (s s' : ss) : Prop :=
  nlIsSpace s' = nlIsSpace s /\ nlIsEnd s' = nlIsEnd s /\
  argLimit s' = argLimit s /\ limit s' = limit s /\ maxWid s' = maxWid s.

(* A scanner between two directives of the format of Sscanf. *)
Definition normal (s : ss) : Prop :=
  nlIsSpace s = false /\ nlIsEnd s = false /\ argLimit s = limit s.

End fmt.

(** ** intergo *)

(* func parseLocaleString(locale string) (string, string, error) *)
Definition parseLocaleString (locale : string) : error + string * string :=
  let '(n, lang, local, err) := fmt.Sscanf_2s_2s locale in
  match err with
  | Some err => inl err
  | None =>
    if negb (n =? 2)
    then inl (errors_New ("unparsable locale string " +:+ locale))
    else inr (lang, local)
  end.

(** *** The data model

    A Go map value is nil or a reference to a map object.  The package only
    reads [Locale] objects, so a [Locale] is modelled by its content ([None]
    is the nil map).  A [Language] object is written in place by [AddLocale]
    while [ctx.preferedLang] may refer to it, so [Language] objects live in
    a heap and map values of type [Language] are references into it. *)

(* type Locale map[string]string *)
Abbreviation Locale := (option (gmap string string)).

(* The content of an object of type Language map[string]Locale. *)
Abbreviation LanguageObj := (gmap string Locale).

(* A value of type Language: nil, or the address of its object. *)
Abbreviation Language := (option positive).

(* type InterContext struct *)
Record InterContext := mkInterContext {
  languages : option (gmap string Language);
  prefered : Locale;
  preferedLang : Language }.

Record state := mkstate {
  heap : gmap positive LanguageObj;
  ctx : InterContext }.

(* m[k] on a map that may be nil: the zero value when the key is absent. *)
Definition index {V} (zero : V) (m : option (gmap string V)) (k : string) : V :=
  match m with
  | None => zero
  | Some m => default zero (m !! k)
  end.

(* The object a value of type Language refers to; nil reads as a map
   without entries. *)
Definition deref (h : gmap positive LanguageObj) (l : Language) : option LanguageObj :=
  match l with
  | None => None
  | Some a => Some (default ∅ (h !! a))
  end.

(* The entries of a map that may be nil. *)
Definition entries {V} (m : option (gmap string V)) : list (string * V) :=
  match m with
  | None => []
  | Some m => map_to_list m
  end.

(* [range m] visits every entry of [m] once, in an order that is not
   specified: [ord] is one of the orders it may take. *)
Definition range_of {V} (m : option (gmap string V)) (ord : list (string * V)) : Prop :=
  ord ≡ₚ entries m.

(* The zero value of an InterContext: var ctx InterContext. *)
Definition zero_ctx : InterContext := mkInterContext None None None.

(* A call returns a value and the state it leaves, or panics. *)
Inductive outcome (A : Type) :=
| Return (a : A) (st : state)
| Panic (msg : string).
Arguments Return {A} a st.
Arguments Panic {A} msg.

(* func (ctx *InterContext) Init() *)
Definition Init (st : state) : unit * state :=
  (tt, mkstate (heap st)
         (mkInterContext (Some ∅) (prefered (ctx st)) (preferedLang (ctx st)))).

(* func (ctx *InterContext) AddLocale(locale string, entries map[string]string) error *)
Definition AddLocale (locale : string) (entries : Locale) (st : state)
  : outcome (option error) :=
  match parseLocaleString locale with
  | inl err => Return (Some err) st
  | inr (lang, local) =>
    match index None (languages (ctx st)) lang with
    | None =>
      match languages (ctx st) with
      | None => Panic "assignment to entry in nil map"
      | Some langs =>
        let a := fresh (dom (heap st)) in
        Return None
          (mkstate (<[a := {[local := entries]}]> (heap st))
             (mkInterContext (Some (<[lang := Some a]> langs))
                (prefered (ctx st)) (preferedLang (ctx st))))
      end
    | Some a =>
      Return None
        (mkstate (<[a := <[local := entries]> (default ∅ (heap st !! a))]> (heap st))
           (ctx st))
    end
  end.

(* func (ctx *InterContext) SetPreferedLocale(locale string) error *)
Definition SetPreferedLocale (locale : string) (st : state) : option error * state :=
  match parseLocaleString locale with
  | inl err => (Some err, st)
  | inr (lang, local) =>
    let preferedLang' := index None (languages (ctx st)) lang in
    let prefered' :=
      match preferedLang' with
      | Some _ => index None (deref (heap st) preferedLang') local
      | None => prefered (ctx st)
      end in
    (None, mkstate (heap st)
             (mkInterContext (languages (ctx st)) prefered' preferedLang'))
  end.

(* func (ctx *InterContext) AutoSetPreferedLocale() error; [Getenv] is
   os.Getenv, the empty string for a variable that is not set. *)
Definition AutoSetPreferedLocale (Getenv : string -> string) (st : state)
  : option error * state :=
  let lcvar := Getenv "LC_ALL" in
  match SetPreferedLocale lcvar st with
  | (None, st) => (None, st)
  | (Some _, st) =>
    let lcvar := Getenv "LANG" in
    SetPreferedLocale lcvar st
  end.

(* for _, l := range m { localTxt = l[text]; if localTxt != "" { return localTxt } }
   over the entries in the order [ord]; [None] when the loop runs out. *)
Fixpoint range_lookup (text : string) (ord : list (string * Locale)) : option string :=
  match ord with
  | [] => None
  | (_, l) :: ord =>
    let localTxt := index "" l text in
    if bool_decide (localTxt ≠ "") then Some localTxt
    else range_lookup text ord
  end.

(* func (ctx *InterContext) Get(text string) string; [ord] is the order in
   which range visits ctx.preferedLang. *)
Definition Get (ord : list (string * Locale)) (text : string) (st : state)
  : string * state :=
  match preferedLang (ctx st) with
  | None => (text, st)
  | Some _ =>
    let fallback :=
      match range_lookup text ord with
      | Some localTxt => (localTxt, st)
      | None => (text, st)
      end in
    match prefered (ctx st) with
    | Some _ =>
      let localTxt := index "" (prefered (ctx st)) text in
      if bool_decide (localTxt ≠ "") then (localTxt, st) else fallback
    | None => fallback
    end
  end.

(* func (ctx *InterContext) GetFromLocale(text string, locale string) (string, error);
   [ord] is the order in which range visits langMap. *)
Definition GetFromLocale (ord : list (string * Locale)) (text locale : string)
  (st : state) : (string * option error) * state :=
  match parseLocaleString locale with
  | inl err => ((text, Some err), st)
  | inr (lang, local) =>
    let langMap := index None (languages (ctx st)) lang in
    match langMap with
    | None => ((text, None), st)
    | Some _ =>
      let localMap := index None (deref (heap st) langMap) local in
      match localMap with
      | None =>
        match range_lookup text ord with
        | Some localTxt => ((localTxt, None), st)
        | None => ((text, None), st)
        end
      | Some _ =>
        let localTxt := index "" localMap text in
        if bool_decide (localTxt = "") then ((text, None), st)
        else ((localTxt, None), st)
      end
    end
  end.

(** *** Vocabulary of the specification *)

(* The translation a table offers for [text]: the text stored under that
   key, an empty text counting as none, like an absent key or a nil table. *)
Definition translation (l : Locale) (text : string) : option string :=
  match l with
  | None => None
  | Some m =>
    match m !! text with
    | Some v => if decide (v = "") then None else Some v
    | None => None
    end
  end.

(* [v] is the first translation of [text] found when the tables of the
   group [g] are visited in the order [ord]. *)
Definition first_match (g : LanguageObj) (ord : list (string * Locale))
  (text v : string) : Prop :=
  exists pre k l post,
    ord = pre ++ (k, l) :: post /\
    Forall (fun e => translation (snd e) text = None) pre /\
    g !! k = Some l /\ translation l text = Some v.

(* No table of the group [g] translates [text]. *)
Definition no_match (g : LanguageObj) (text : string) : Prop :=
  forall k l, g !! k = Some l -> translation l text = None.

(* func strings.Contains(s, substr string) bool *)
Fixpoint Contains (s substr : string) : bool :=
  String.prefix substr s ||
  match s with
  | EmptyString => false
  | String _ s' => Contains s' substr
  end.

(* The string holds the byte '_'. *)
Definition has_underscore (s : string) : bool :=
  existsb (Z.eqb 95) (bytes_of_string s).

(* func utf8.RuneCountInString(s string) int: the characters of a string. *)
Definition RuneCountInString (s : string) : nat :=
  length (runes (bytes_of_string s)).

(* The string is, rune by rune: white space, two runes that are not white
   space, an underscore, white space, a rune that is not white space, and
   anything. *)
Definition locale_shaped (s : string) : Prop :=
  exists ws x1 x2 ws' y rest,
    runes (bytes_of_string s) = ws ++ [x1; x2; 95] ++ ws' ++ y :: rest /\
    Forall (fun r => fmt.isSpace r = true) ws /\
    fmt.isSpace x1 = false /\ fmt.isSpace x2 = false /\
    Forall (fun r => fmt.isSpace r = true) ws' /\
    fmt.isSpace y = false.

(* The string is the UTF-8 encoding of [n] characters, none of them white
   space. *)
Definition nonspace_chars (n : nat) (s : string) : bool :=
  let l := runes (bytes_of_string s) in
  (length l =? n)%nat && forallb fmt.notSpace l &&
  String.eqb (string_of_bytes (encode l)) s.

(* The tables of the group [g] that translate [text] all give the same
   translation. *)
Definition single_valued (g : LanguageObj) (text : string) : Prop :=
  forall k1 l1 v1 k2 l2 v2,
    g !! k1 = Some l1 -> translation l1 text = Some v1 ->
    g !! k2 = Some l2 -> translation l2 text = Some v2 -> v1 = v2.

(** *** Well-formed states

    What holds of the objects of a running program: every group the context
    refers to is allocated and has at least one region, and two languages
    never refer to the same group. *)

Definition allocated (h : gmap positive LanguageObj) (l : Language) : Prop :=
  forall a, l = Some a -> exists g, h !! a = Some g /\ g <> ∅.

Definition wf (st : state) : Prop :=
  (forall lang, allocated (heap st) (index None (languages (ctx st)) lang)) /\
  (forall lang1 lang2 a,
     index None (languages (ctx st)) lang1 = Some a ->
     index None (languages (ctx st)) lang2 = Some a -> lang1 = lang2) /\
  allocated (heap st) (preferedLang (ctx st)).

(** *** The contexts of the tests *)

Module examples.

Definition empty_state : state := mkstate ∅ zero_ctx.

Definition hello_pt : Locale := Some {[ "hello" := "olá" ]}.

Definition after (o : outcome (option error)) : state :=
  match o with
  | Return _ st => st
  | Panic _ => empty_state
  end.

(* initTestingContext of the tests: Init, then
   AddLocale("pt_BR.UTF-8", map[string]string{"hello": "olá"}). *)
Definition initTestingContext : state :=
  after (AddLocale "pt_BR.UTF-8" hello_pt (snd (Init empty_state))).

Definition prefers_pt_BR : state :=
  snd (SetPreferedLocale "pt_BR" initTestingContext).

Definition prefers_pt_PT : state :=
  snd (SetPreferedLocale "pt_PT" initTestingContext).

(* The order in which range visits the group of a reference, when it takes
   the entries as the map lists them. *)
Definition listed (st : state) (l : Language) : list (string * Locale) :=
  entries (deref (heap st) l).

End examples.

(** * Properties *)

(** ** UTF-8: decoding what was encoded *)

Module utf8_facts.
Import utf8.

Ltac zdiv := Z.to_euclidean_division_equations; lia.
Ltac bytes_eq := repeat (apply (f_equal2 (@cons Z)); [zdiv|]); reflexivity.

Lemma land_low x lo n :
  0 <= n -> x mod 2 ^ n = 0 -> 0 <= lo < 2 ^ n -> Z.land x lo = 0.
Proof.
  intros Hn Hx Hlo. apply Z.bits_inj'. intros m Hm.
  rewrite Z.land_spec, Z.bits_0.
  destruct (Z.lt_ge_cases m n) as [Hlt|Hge].
  - assert (Z.testbit x m = false) as ->; [|reflexivity].
    rewrite <- (Z.mod_pow2_bits_low x n m) by lia.
    rewrite Hx. apply Z.bits_0.
  - rewrite <- (Z.mod_small lo (2 ^ n)) by lia.
    rewrite Z.mod_pow2_bits_high by lia. apply andb_false_r.
Qed.

Lemma lor_low x lo n :
  0 <= n -> x mod 2 ^ n = 0 -> 0 <= lo < 2 ^ n -> Z.lor x lo = x + lo.
Proof.
  intros Hn Hx Hlo. pose proof (Z.add_lor_land x lo) as H.
  rewrite (land_low x lo n) in H by assumption. lia.
Qed.

Lemma land_mask x n : 0 <= n -> Z.land x (2 ^ n - 1) = x mod 2 ^ n.
Proof.
  intros. rewrite <- Z.land_ones by assumption.
  rewrite Z.ones_equiv. reflexivity.
Qed.

Lemma to_byte_mod x : to_byte x = x mod 256.
Proof. apply (land_mask x 8). lia. Qed.

Lemma land_maskx x : Z.land x maskx = x mod 64.
Proof. apply (land_mask x 6). lia. Qed.

Lemma land_mask2 x : Z.land x mask2 = x mod 32.
Proof. apply (land_mask x 5). lia. Qed.

Lemma land_mask3 x : Z.land x mask3 = x mod 16.
Proof. apply (land_mask x 4). lia. Qed.

Lemma land_mask4 x : Z.land x mask4 = x mod 8.
Proof. apply (land_mask x 3). lia. Qed.

Lemma lor_tx y : 0 <= y < 64 -> Z.lor tx y = 128 + y.
Proof. intros. apply (lor_low 128 y 6); [lia | reflexivity | simpl; lia]. Qed.

Lemma lor_t2 y : 0 <= y < 32 -> Z.lor t2 y = 192 + y.
Proof. intros. apply (lor_low 192 y 6); [lia | reflexivity | simpl; lia]. Qed.

Lemma lor_t3 y : 0 <= y < 16 -> Z.lor t3 y = 224 + y.
Proof. intros. apply (lor_low 224 y 5); [lia | reflexivity | simpl; lia]. Qed.

Lemma lor_t4 y : 0 <= y < 8 -> Z.lor t4 y = 240 + y.
Proof. intros. apply (lor_low 240 y 4); [lia | reflexivity | simpl; lia]. Qed.

Lemma shiftr_6 x : Z.shiftr x 6 = x / 64.
Proof. apply (Z.shiftr_div_pow2 x 6). lia. Qed.

Lemma shiftr_12 x : Z.shiftr x 12 = x / 4096.
Proof. apply (Z.shiftr_div_pow2 x 12). lia. Qed.

Lemma shiftr_18 x : Z.shiftr x 18 = x / 262144.
Proof. apply (Z.shiftr_div_pow2 x 18). lia. Qed.

(* The runes of one, two, three and four bytes. *)
Lemma AppendRune_1 r : 0 <= r <= 0x7F -> AppendRune r = [r].
Proof.
  intros H. unfold AppendRune, rune1Max.
  destruct (Z.leb_spec r 0x7F); [|lia].
  rewrite to_byte_mod. bytes_eq.
Qed.

Lemma AppendRune_2 r :
  0x80 <= r <= 0x7FF -> AppendRune r = [192 + r / 64; 128 + r mod 64].
Proof.
  intros H. unfold AppendRune, rune1Max, rune2Max.
  destruct (Z.leb_spec r 0x7F); [lia|].
  destruct (Z.leb_spec r 0x7FF); [|lia].
  rewrite !to_byte_mod, land_maskx, shiftr_6.
  rewrite lor_t2, lor_tx by zdiv.
  bytes_eq.
Qed.

Lemma AppendRune_3 r :
  0x800 <= r <= 0xFFFF -> ValidRune r = true ->
  AppendRune r = [224 + r / 4096; 128 + (r / 64) mod 64; 128 + r mod 64].
Proof.
  intros H V. unfold ValidRune, surrogateMin, surrogateMax, MaxRune in V.
  unfold AppendRune, rune1Max, rune2Max, rune3Max, MaxRune, surrogateMin,
    surrogateMax.
  destruct (Z.leb_spec r 0x7F); [lia|].
  destruct (Z.leb_spec r 0x7FF); [lia|].
  destruct (Z.ltb_spec 0x10FFFF r); [lia|].
  destruct (Z.leb_spec 0xD800 r), (Z.leb_spec r 0xDFFF); simpl;
    try (exfalso; revert V;
         destruct (Z.leb_spec 0 r), (Z.ltb_spec r 0xD800),
           (Z.ltb_spec 0xDFFF r), (Z.leb_spec r 0x10FFFF);
         simpl; (discriminate || lia)).
  all: destruct (Z.leb_spec r 0xFFFF); [|lia].
  all: rewrite !to_byte_mod, !land_maskx, shiftr_6, shiftr_12.
  all: rewrite lor_t3, !lor_tx by zdiv.
  all: bytes_eq.
Qed.

Lemma AppendRune_4 r :
  0x10000 <= r <= 0x10FFFF ->
  AppendRune r = [240 + r / 262144; 128 + (r / 4096) mod 64;
                  128 + (r / 64) mod 64; 128 + r mod 64].
Proof.
  intros H.
  unfold AppendRune, rune1Max, rune2Max, rune3Max, MaxRune, surrogateMin,
    surrogateMax.
  destruct (Z.leb_spec r 0x7F); [lia|].
  destruct (Z.leb_spec r 0x7FF); [lia|].
  destruct (Z.ltb_spec 0x10FFFF r); [lia|].
  destruct (Z.leb_spec 0xD800 r), (Z.leb_spec r 0xDFFF); simpl; try lia.
  all: destruct (Z.leb_spec r 0xFFFF); [lia|].
  all: rewrite !to_byte_mod, !land_maskx, shiftr_6, shiftr_12, shiftr_18.
  all: rewrite lor_t4, !lor_tx by zdiv.
  all: bytes_eq.
Qed.

Lemma shiftl_6 x : Z.shiftl x 6 = x * 64.
Proof. apply (Z.shiftl_mul_pow2 x 6). lia. Qed.

Lemma shiftl_12 x : Z.shiftl x 12 = x * 4096.
Proof. apply (Z.shiftl_mul_pow2 x 12). lia. Qed.

Lemma shiftl_18 x : Z.shiftl x 18 = x * 262144.
Proof. apply (Z.shiftl_mul_pow2 x 18). lia. Qed.

(* The rune that DecodeRune assembles from two, three and four bytes. *)
Lemma decoded_2 a b :
  Z.lor (Z.shiftl (Z.land a mask2) 6) (Z.land b maskx)
  = a mod 32 * 64 + b mod 64.
Proof.
  rewrite land_mask2, land_maskx, shiftl_6.
  apply (lor_low _ _ 6); [lia | zdiv | simpl; zdiv].
Qed.

Lemma decoded_3 a b c :
  Z.lor (Z.lor (Z.shiftl (Z.land a mask3) 12) (Z.shiftl (Z.land b maskx) 6))
        (Z.land c maskx)
  = a mod 16 * 4096 + b mod 64 * 64 + c mod 64.
Proof.
  rewrite land_mask3, !land_maskx, shiftl_6, shiftl_12.
  rewrite (lor_low (a mod 16 * 4096) _ 12) by (simpl; zdiv).
  apply (lor_low _ _ 6); [lia | zdiv | simpl; zdiv].
Qed.

Lemma decoded_4 a b c d :
  Z.lor (Z.lor (Z.lor (Z.shiftl (Z.land a mask4) 18)
                      (Z.shiftl (Z.land b maskx) 12))
               (Z.shiftl (Z.land c maskx) 6))
        (Z.land d maskx)
  = a mod 8 * 262144 + b mod 64 * 4096 + c mod 64 * 64 + d mod 64.
Proof.
  rewrite land_mask4, !land_maskx, shiftl_6, shiftl_12, shiftl_18.
  rewrite (lor_low (a mod 8 * 262144) _ 18) by (simpl; zdiv).
  rewrite (lor_low (a mod 8 * 262144 + _) _ 12) by (simpl; zdiv).
  apply (lor_low _ _ 6); [lia | zdiv | simpl; zdiv].
Qed.

Lemma ValidRune_spec r :
  ValidRune r = true <-> 0 <= r < 0xD800 \/ 0xDFFF < r <= 0x10FFFF.
Proof.
  unfold ValidRune, surrogateMin, surrogateMax, MaxRune.
  destruct (Z.leb_spec 0 r), (Z.ltb_spec r 0xD800), (Z.ltb_spec 0xDFFF r),
    (Z.leb_spec r 0x10FFFF); simpl; split; intros; (lia || discriminate || reflexivity).
Qed.

(* Splits the comparisons of the goal and of the context. *)
Ltac cmp_cases :=
  repeat match goal with
         | |- context [Z.ltb ?a ?b] => destruct (Z.ltb_spec a b)
         | |- context [Z.leb ?a ?b] => destruct (Z.leb_spec a b)
         | |- context [Z.eqb ?a ?b] => destruct (Z.eqb_spec a b)
         end.

(* DecodeRune by the class of the first byte. *)
Lemma DecodeRune_1 p0 p : 0 <= p0 < 0x80 -> DecodeRune (p0 :: p) = (p0, 1%nat).
Proof.
  intros H. unfold DecodeRune, first.
  destruct (Z.ltb_spec p0 0x80); [reflexivity | lia].
Qed.

Lemma first_2 p0 : 0xC2 <= p0 < 0xE0 -> first p0 = s1.
Proof. intros. unfold first. cmp_cases; (reflexivity || lia). Qed.

Lemma first_3 p0 :
  0xE0 <= p0 < 0xF0 ->
  first p0 = if p0 =? 0xE0 then s2 else if p0 =? 0xED then s4 else s3.
Proof. intros. unfold first. cmp_cases; (reflexivity || lia). Qed.

Lemma first_4 p0 :
  0xF0 <= p0 <= 0xF4 ->
  first p0 = if p0 =? 0xF0 then s5 else if p0 =? 0xF4 then s7 else s6.
Proof. intros. unfold first. cmp_cases; (reflexivity || lia). Qed.

Lemma first_invalid p0 :
  0x80 <= p0 < 0xC2 \/ 0xF4 < p0 -> first p0 = xx.
Proof. intros. unfold first. cmp_cases; (reflexivity || lia). Qed.

Lemma DecodeRune_invalid p0 p :
  0x80 <= p0 < 0xC2 \/ 0xF4 < p0 -> DecodeRune (p0 :: p) = (RuneError, 1%nat).
Proof. intros H. unfold DecodeRune. rewrite first_invalid by assumption. reflexivity. Qed.

Lemma DecodeRune_2 p0 b1 p :
  0xC2 <= p0 < 0xE0 -> 0x80 <= b1 <= 0xBF ->
  DecodeRune (p0 :: b1 :: p) = (p0 mod 32 * 64 + b1 mod 64, 2%nat).
Proof.
  intros H0 H1. unfold DecodeRune. rewrite first_2 by assumption.
  change (as_ <=? s1) with false. change (Z.land s1 7) with 2.
  change (acceptRanges (Z.shiftr s1 4)) with (0x80, 0xBF).
  cbv beta iota zeta. rewrite decoded_2.
  cmp_cases; simpl; try reflexivity; simpl length in *; lia.
Qed.

Lemma DecodeRune_3 p0 b1 b2 p :
  0xE0 <= p0 < 0xF0 ->
  0x80 <= b1 <= 0xBF -> (p0 = 0xE0 -> 0xA0 <= b1) -> (p0 = 0xED -> b1 <= 0x9F) ->
  0x80 <= b2 <= 0xBF ->
  DecodeRune (p0 :: b1 :: b2 :: p)
  = (p0 mod 16 * 4096 + b1 mod 64 * 64 + b2 mod 64, 3%nat).
Proof.
  intros H0 H1 Hlo Hhi H2. unfold DecodeRune. rewrite first_3 by assumption.
  rewrite <- decoded_3. unfold locb, hicb.
  destruct (Z.eqb_spec p0 0xE0); [|destruct (Z.eqb_spec p0 0xED)].
  - change (as_ <=? s2) with false. change (Z.land s2 7) with 3.
    change (acceptRanges (Z.shiftr s2 4)) with (0xA0, 0xBF).
    cbv beta iota zeta.
    cmp_cases; simpl; try reflexivity; simpl length in *; lia.
  - change (as_ <=? s4) with false. change (Z.land s4 7) with 3.
    change (acceptRanges (Z.shiftr s4 4)) with (0x80, 0x9F).
    cbv beta iota zeta.
    cmp_cases; simpl; try reflexivity; simpl length in *; lia.
  - change (as_ <=? s3) with false. change (Z.land s3 7) with 3.
    change (acceptRanges (Z.shiftr s3 4)) with (0x80, 0xBF).
    cbv beta iota zeta.
    cmp_cases; simpl; try reflexivity; simpl length in *; lia.
Qed.

Lemma DecodeRune_4 p0 b1 b2 b3 p :
  0xF0 <= p0 <= 0xF4 ->
  0x80 <= b1 <= 0xBF -> (p0 = 0xF0 -> 0x90 <= b1) -> (p0 = 0xF4 -> b1 <= 0x8F) ->
  0x80 <= b2 <= 0xBF -> 0x80 <= b3 <= 0xBF ->
  DecodeRune (p0 :: b1 :: b2 :: b3 :: p)
  = (p0 mod 8 * 262144 + b1 mod 64 * 4096 + b2 mod 64 * 64 + b3 mod 64,
     4%nat).
Proof.
  intros H0 H1 Hlo Hhi H2 H3. unfold DecodeRune. rewrite first_4 by assumption.
  rewrite <- decoded_4. unfold locb, hicb.
  destruct (Z.eqb_spec p0 0xF0); [|destruct (Z.eqb_spec p0 0xF4)].
  - change (as_ <=? s5) with false. change (Z.land s5 7) with 4.
    change (acceptRanges (Z.shiftr s5 4)) with (0x90, 0xBF).
    cbv beta iota zeta.
    cmp_cases; simpl; try reflexivity; simpl length in *; lia.
  - change (as_ <=? s7) with false. change (Z.land s7 7) with 4.
    change (acceptRanges (Z.shiftr s7 4)) with (0x80, 0x8F).
    cbv beta iota zeta.
    cmp_cases; simpl; try reflexivity; simpl length in *; lia.
  - change (as_ <=? s6) with false. change (Z.land s6 7) with 4.
    change (acceptRanges (Z.shiftr s6 4)) with (0x80, 0xBF).
    cbv beta iota zeta.
    cmp_cases; simpl; try reflexivity; simpl length in *; lia.
Qed.

Lemma DecodeRune_AppendRune r p :
  ValidRune r = true ->
  DecodeRune (AppendRune r ++ p) = (r, length (AppendRune r)).
Proof.
  intros V. apply ValidRune_spec in V.
  destruct (Z.le_gt_cases r 0x7F); [|destruct (Z.le_gt_cases r 0x7FF);
    [|destruct (Z.le_gt_cases r 0xFFFF)]].
  - rewrite AppendRune_1 by lia. cbn [app length]. apply DecodeRune_1. lia.
  - rewrite AppendRune_2 by lia. cbn [app length].
    rewrite DecodeRune_2 by zdiv. f_equal. zdiv.
  - rewrite AppendRune_3 by (try apply ValidRune_spec; lia). cbn [app length].
    rewrite DecodeRune_3 by zdiv. f_equal. zdiv.
  - rewrite AppendRune_4 by lia. cbn [app length].
    rewrite DecodeRune_4 by zdiv. f_equal. zdiv.
Qed.

Lemma AppendRune_length r : (1 <= length (AppendRune r) <= 4)%nat.
Proof.
  unfold AppendRune.
  repeat match goal with
         | |- context [if ?b then _ else _] => destruct b
         end; simpl; lia.
Qed.

Lemma runes_AppendRune r p :
  ValidRune r = true -> runes (AppendRune r ++ p) = r :: runes p.
Proof.
  intros V. pose proof (DecodeRune_AppendRune r p V) as D.
  pose proof (AppendRune_length r) as L.
  destruct (AppendRune r) as [|b0 [|b1 [|b2 [|b3 [|b4 l]]]]];
    simpl in L; try lia; cbn [app runes]; cbn [app] in D; rewrite D;
    reflexivity.
Qed.

Lemma runes_encode l p :
  Forall (fun r => ValidRune r = true) l -> runes (encode l ++ p) = l ++ runes p.
Proof.
  induction 1 as [|r l V _ IH]; [reflexivity|].
  unfold encode in *. cbn [map concat]. rewrite <- app_assoc.
  rewrite runes_AppendRune by assumption. rewrite IH. reflexivity.
Qed.

Lemma first_cases p0 :
  (first p0 = as_ /\ p0 < 0x80) \/ first p0 = xx \/
  (first p0 = s1 /\ 0xC2 <= p0 < 0xE0) \/
  (first p0 = s2 /\ p0 = 0xE0) \/
  (first p0 = s3 /\ 0xE1 <= p0 < 0xF0 /\ p0 <> 0xED) \/
  (first p0 = s4 /\ p0 = 0xED) \/
  (first p0 = s5 /\ p0 = 0xF0) \/
  (first p0 = s6 /\ 0xF1 <= p0 < 0xF4) \/
  (first p0 = s7 /\ p0 = 0xF4).
Proof.
  unfold first. cmp_cases; subst; try lia; intuition (reflexivity || lia).
Qed.

(* What DecodeRune gives on the bytes of a string: a valid rune, which is
   the first byte itself when it is below 0x80. *)
Lemma DecodeRune_classify p0 t :
  0 <= p0 ->
  ValidRune (fst (DecodeRune (p0 :: t))) = true /\
  (fst (DecodeRune (p0 :: t)) < 0x80 -> fst (DecodeRune (p0 :: t)) = p0).
Proof.
  intros H0.
  assert (E : ValidRune RuneError = true /\ (RuneError < 0x80 -> RuneError = p0))
    by (split; [reflexivity | unfold RuneError; lia]).
  unfold DecodeRune.
  destruct (first_cases p0) as [[-> ?]|[->|[[-> ?]|[[-> ?]|[[-> ?]|[[-> ?]|
    [[-> ?]|[[-> ?]|[-> ?]]]]]]]]].
  all: repeat match goal with
       | |- context [as_ <=? ?c] =>
         let b := eval vm_compute in (as_ <=? c) in change (as_ <=? c) with b
       | |- context [Z.land ?c 7] =>
         let b := eval vm_compute in (Z.land c 7) in change (Z.land c 7) with b
       | |- context [acceptRanges ?c] =>
         let b := eval vm_compute in (acceptRanges c) in
         change (acceptRanges c) with b
       | |- context [?c <=? 2] =>
         let b := eval vm_compute in (c <=? 2) in change (c <=? 2) with b
       | |- context [?c <=? 3] =>
         let b := eval vm_compute in (c <=? 3) in change (c <=? 3) with b
       | |- context [xx =? xx] => change (xx =? xx) with true
       | |- context [as_ =? xx] => change (as_ =? xx) with false
       end; cbv beta iota zeta.
  all: try exact E.
  all: try (cbn [fst]; split; [apply ValidRune_spec|]; lia).
  all: unfold locb, hicb.
  all: repeat match goal with
       | |- context [match ?l with [] => _ | _ :: _ => _ end] => destruct l
       | |- context [Z.ltb ?a ?b] => destruct (Z.ltb_spec a b)
       end; cbn [orb fst]; try exact E.
  all: rewrite ?decoded_2, ?decoded_3, ?decoded_4.
  all: split; [apply ValidRune_spec|]; zdiv.
Qed.

Lemma runes_cons p0 t :
  exists t', runes (p0 :: t) = fst (DecodeRune (p0 :: t)) :: runes t'
             /\ t' `suffix_of` t.
Proof.
  cbn [runes]. destruct (DecodeRune (p0 :: t)) as [r size]. cbn [fst].
  destruct size as [|[|[|[|[|n]]]]], t as [|b1 [|b2 [|b3 t]]];
    eexists; (split; [reflexivity|]);
    first [ reflexivity
          | apply suffix_cons_r; reflexivity
          | do 2 apply suffix_cons_r; reflexivity
          | do 3 apply suffix_cons_r; reflexivity ].
Qed.

Lemma runes_facts p :
  Forall (fun b => 0 <= b) p ->
  Forall (fun r => ValidRune r = true) (runes p) /\
  (forall r, In r (runes p) -> r < 0x80 -> In r p).
Proof.
  remember (length p) as n eqn:Hn. revert p Hn.
  induction n as [n IH] using lt_wf_ind. intros [|p0 t] Hn Hp.
  - split; [constructor | intros r []].
  - destruct (runes_cons p0 t) as (t' & E & [k ->]). rewrite E.
    inversion Hp as [|? ? H0 Ht]; subst.
    destruct (DecodeRune_classify p0 (k ++ t') H0) as [V A].
    apply Forall_app in Ht as [_ Ht'].
    destruct (IH (length t')) with (p := t') as [V' A'];
      [|reflexivity|assumption|].
    { simpl. rewrite length_app. lia. }
    split.
    + constructor; assumption.
    + intros r [<-|Hr] Hlt.
      * left. symmetry. apply A. exact Hlt.
      * right. apply in_or_app. right. apply A'; assumption.
Qed.

Lemma bytes_of_string_range s :
  Forall (fun b => 0 <= b < 256) (bytes_of_string s).
Proof.
  unfold bytes_of_string.
  induction (list_ascii_of_string s) as [|a l IH]; constructor; [|exact IH].
  pose proof (N_ascii_bounded a). lia.
Qed.

Lemma bytes_of_string_of_bytes p :
  Forall (fun b => 0 <= b < 256) p -> bytes_of_string (string_of_bytes p) = p.
Proof.
  unfold bytes_of_string, string_of_bytes. intros H.
  rewrite list_ascii_of_string_of_list_ascii, map_map.
  induction H as [|b p Hb _ IH]; [reflexivity|].
  cbn [map]. rewrite IH. f_equal.
  rewrite N_ascii_embedding by lia. lia.
Qed.

Lemma string_of_bytes_of_string s : string_of_bytes (bytes_of_string s) = s.
Proof.
  unfold bytes_of_string, string_of_bytes. rewrite map_map.
  rewrite <- (string_of_list_ascii_of_string s) at 2. f_equal.
  induction (list_ascii_of_string s) as [|a l IH]; [reflexivity|].
  cbn [map]. rewrite IH, N2Z.id, ascii_N_embedding. reflexivity.
Qed.

Lemma bytes_of_string_app s1 s2 :
  bytes_of_string (s1 +:+ s2) = bytes_of_string s1 ++ bytes_of_string s2.
Proof.
  unfold bytes_of_string. induction s1 as [|a s1 IH]; [reflexivity|].
  change (String a s1 +:+ s2) with (String a (s1 +:+ s2)).
  cbn [list_ascii_of_string map app]. f_equal. exact IH.
Qed.

Lemma AppendRune_range r :
  ValidRune r = true -> Forall (fun b => 0 <= b < 256) (AppendRune r).
Proof.
  intros V. pose proof V as V'. apply ValidRune_spec in V'.
  destruct (Z.le_gt_cases r 0x7F); [|destruct (Z.le_gt_cases r 0x7FF);
    [|destruct (Z.le_gt_cases r 0xFFFF)]].
  - rewrite AppendRune_1 by lia. repeat constructor; lia.
  - rewrite AppendRune_2 by lia. repeat constructor; zdiv.
  - rewrite AppendRune_3 by (assumption || lia). repeat constructor; zdiv.
  - rewrite AppendRune_4 by lia. repeat constructor; zdiv.
Qed.

Lemma encode_range l :
  Forall (fun r => ValidRune r = true) l ->
  Forall (fun b => 0 <= b < 256) (encode l).
Proof.
  induction 1 as [|r l V _ IH]; [constructor|].
  unfold encode in *. cbn [map concat]. apply Forall_app. split;
    [apply AppendRune_range|]; assumption.
Qed.

End utf8_facts.

(** ** The loops of the scanner *)

Module fmt_facts.
Import fmt.

Lemma SkipSpace_unroll s :
  SkipSpace s = match SkipSpace_body s with
                | inl e => inl e
                | inr (false, s') => inr (tt, s')
                | inr (true, s') => SkipSpace s'
                end.
Proof.
  rewrite SkipSpace_equation_1.
  assert (G : forall refine : {y | SkipSpace_body s = y},
    SkipSpace_unfold_clause_1 s refine =
    match proj1_sig refine with
    | inl e => inl e
    | inr (false, s') => inr (tt, s')
    | inr (true, s') => SkipSpace s'
    end) by (intros [[e|[[] s']] H]; reflexivity).
  apply G.
Qed.

Lemma token_loop_unroll f s :
  token_loop f s = match token_body f s with
                   | inl e => inl e
                   | inr (false, s') => inr (buf s', s')
                   | inr (true, s') => token_loop f s'
                   end.
Proof.
  rewrite token_loop_equation_1.
  assert (G : forall refine : {y | token_body f s = y},
    token_loop_unfold_clause_1 f s refine =
    match proj1_sig refine with
    | inl e => inl e
    | inr (false, s') => inr (buf s', s')
    | inr (true, s') => token_loop f s'
    end) by (intros [[e|[[] s']] H]; reflexivity).
  apply G.
Qed.

Ltac eqb_subst :=
  repeat match goal with
         | H : (_ =? _) = true |- _ => apply Z.eqb_eq in H; subst
         | H : negb _ = true |- _ => apply negb_true_iff in H
         | H : negb _ = false |- _ => apply negb_false_iff in H
         | H : _ || _ = false |- _ => apply orb_false_iff in H as [? ?]
         | H : (_ <=? _) = false |- _ => apply Z.leb_gt in H
         end.

Lemma SkipSpace_body_continue s s1 :
  nlIsSpace s = false -> nlIsEnd s = false ->
  SkipSpace_body s = inr (true, s1) ->
  same_conf s s1 /\ buf s1 = buf s /\
  (atEOF s1 = true -> rs s1 = []) /\
  exists r, rs s = r :: rs s1 /\ isSpace r = true /\ count s1 = count s + 1.
Proof.
  intros Hs He H. unfold SkipSpace_body in H. scan_cases; eqb_subst.
  all: unfold same_conf; simpl; rewrite ?He in *; simpl in *.
  all: repeat split; try congruence.
  all: eexists; repeat split; try eassumption; try reflexivity; try lia.
  all: congruence.
Qed.

Lemma SkipSpace_body_break s s1 :
  nlIsSpace s = false -> nlIsEnd s = false ->
  SkipSpace_body s = inr (false, s1) ->
  same_conf s s1 /\ buf s1 = buf s /\ rs s1 = rs s /\ count s1 = count s /\
  (atEOF s1 = true -> atEOF s = true \/ rs s1 = []) /\
  (blocked s1 = true \/ stops_at isSpace s1).
Proof.
  intros Hs He H. unfold SkipSpace_body in H. scan_cases; eqb_subst.
  all: unfold same_conf, blocked, stops_at; simpl; rewrite ?He in *; simpl in *.
  all: repeat split; try congruence; try lia.
  all: try (left; assumption); try (left; reflexivity).
  all: right; repeat split; try lia; eauto.
Qed.

Lemma SkipSpace_body_error s e :
  SkipSpace_body s = inl e -> e = errors_New "unexpected newline".
Proof.
  intros H. unfold SkipSpace_body in H. scan_cases; reflexivity.
Qed.

Lemma same_conf_refl s : same_conf s s.
Proof. unfold same_conf. auto. Qed.

Lemma same_conf_trans s1 s2 s3 :
  same_conf s1 s2 -> same_conf s2 s3 -> same_conf s1 s3.
Proof. unfold same_conf. intuition congruence. Qed.

(* SkipSpace reads white space only, and stops where no rune can be read or
   before a rune that is not white space. *)
Lemma SkipSpace_spec s u s' :
  nlIsSpace s = false -> nlIsEnd s = false ->
  SkipSpace s = inr (u, s') ->
  exists ws, rs s = ws ++ rs s' /\ Forall (fun r => isSpace r = true) ws /\
    count s' = count s + Z.of_nat (length ws) /\ buf s' = buf s /\
    same_conf s s' /\
    (atEOF s' = true -> atEOF s = true \/ rs s' = []) /\
    (blocked s' = true \/ stops_at isSpace s').
Proof.
  remember (length (rs s)) as n eqn:Hn. revert s Hn.
  induction n as [n IH] using lt_wf_ind. intros s Hn Hs He H.
  rewrite SkipSpace_unroll in H.
  destruct (SkipSpace_body s) as [e|[[] s1]] eqn:B; [discriminate| |].
  - apply SkipSpace_body_continue in B as (C & Hb & E1 & r & Hr & Sp & Hc);
      [|assumption..].
    destruct (IH (length (rs s1))) with (s := s1)
      as (ws & Hws & Fws & Hcount & Hbuf & C' & E' & Stop); try assumption.
    + rewrite Hn, Hr. simpl. lia.
    + reflexivity.
    + destruct C as (-> & _). assumption.
    + destruct C as (_ & -> & _). assumption.
    + exists (r :: ws). rewrite Hr, Hws.
      split; [reflexivity|]. split; [constructor; assumption|].
      split; [simpl length; lia|]. split; [congruence|].
      split; [eapply same_conf_trans; eassumption|].
      split; [|assumption].
      intros E. destruct (E' E) as [E1'|?]; [|auto].
      right. apply E1 in E1'. rewrite Hws in E1'.
      apply app_eq_nil in E1'. tauto.
  - injection H as <- <-.
    apply SkipSpace_body_break in B as (C & Hb & Hr & Hc & E & Stop);
      [|assumption..].
    exists []. simpl.
    split; [auto|]. split; [constructor|]. split; [lia|]. auto.
Qed.

Lemma SkipSpace_error s e :
  SkipSpace s = inl e -> e = errors_New "unexpected newline".
Proof.
  remember (length (rs s)) as n eqn:Hn. revert s Hn.
  induction n as [n IH] using lt_wf_ind. intros s Hn H.
  rewrite SkipSpace_unroll in H.
  destruct (SkipSpace_body s) as [e'|[[] s1]] eqn:B; [| |discriminate].
  - injection H as <-. eapply SkipSpace_body_error, B.
  - eapply (IH (length (rs s1))); [|reflexivity|exact H].
    rewrite Hn. clear -B. unfold SkipSpace_body in B. scan_cases; lia.
Qed.

Lemma token_body_continue f s s1 :
  nlIsEnd s = false -> token_body f s = inr (true, s1) ->
  same_conf s s1 /\ atEOF s1 = false /\ count s < argLimit s /\
  exists r, rs s = r :: rs s1 /\ f r = true /\ count s1 = count s + 1 /\
            buf s1 = buf s ++ utf8.AppendRune r.
Proof.
  intros He H. unfold token_body, writeRune in H. scan_cases; eqb_subst.
  all: unfold same_conf; simpl; rewrite ?He in *; simpl in *.
  all: repeat split; try congruence.
  all: eexists; repeat split; try eassumption; try reflexivity; try lia.
Qed.

Lemma token_body_break f s s1 :
  nlIsEnd s = false -> token_body f s = inr (false, s1) ->
  same_conf s s1 /\ buf s1 = buf s /\ rs s1 = rs s /\ count s1 = count s /\
  (atEOF s1 = true -> atEOF s = true \/ rs s1 = []) /\
  (blocked s1 = true \/ stops_at f s1).
Proof.
  intros He H. unfold token_body, writeRune in H. scan_cases; eqb_subst.
  all: unfold same_conf, blocked, stops_at; simpl; rewrite ?He in *; simpl in *.
  all: repeat split; try congruence; try lia.
  all: try (left; assumption); try (left; reflexivity).
  all: right; repeat split; try lia; eauto.
Qed.

Lemma token_body_no_error f s e : token_body f s <> inl e.
Proof.
  intros H. unfold token_body, writeRune in H. scan_cases.
Qed.

(* The loop of token reads runes that satisfy [f] into the buffer, and stops
   where no rune can be read or before a rune that fails [f]. *)
Lemma token_loop_spec f s b s' :
  nlIsEnd s = false ->
  token_loop f s = inr (b, s') ->
  exists tok, rs s = tok ++ rs s' /\ Forall (fun r => f r = true) tok /\
    count s' = count s + Z.of_nat (length tok) /\
    b = buf s ++ encode tok /\ same_conf s s' /\
    (atEOF s' = true -> atEOF s = true \/ rs s' = []) /\
    (tok = [] \/ count s' <= argLimit s') /\
    (blocked s' = true \/ stops_at f s').
Proof.
  remember (length (rs s)) as n eqn:Hn. revert s Hn.
  induction n as [n IH] using lt_wf_ind. intros s Hn He H.
  rewrite token_loop_unroll in H.
  destruct (token_body f s) as [e|[[] s1]] eqn:B; [discriminate| |].
  - apply token_body_continue in B as (C & E1 & Hlim & r & Hr & Fr & Hc & Hb);
      [|assumption].
    destruct (IH (length (rs s1))) with (s := s1)
      as (tok & Htok & Ftok & Hcount & Hbuf & C' & E' & Hle & Stop);
      try assumption.
    + rewrite Hn, Hr. simpl. lia.
    + reflexivity.
    + destruct C as (_ & -> & _). assumption.
    + exists (r :: tok). rewrite Hr, Htok.
      split; [reflexivity|]. split; [constructor; assumption|].
      split; [simpl length; lia|].
      split; [rewrite Hbuf, Hb; unfold encode; cbn [map concat];
              rewrite app_assoc; reflexivity|].
      split; [eapply same_conf_trans; eassumption|].
      split; [intros E; destruct (E' E); [congruence|auto]|].
      split; [|assumption].
      right. destruct Hle as [->|Hle]; [|assumption].
      simpl length in Hcount. destruct C' as (_ & _ & HA' & _).
      destruct C as (_ & _ & HA & _). lia.
  - injection H as <- <-.
    apply token_body_break in B as (C & Hb & Hr & Hc & E & Stop); [|assumption].
    exists []. unfold encode. simpl. rewrite app_nil_r.
    split; [auto|]. split; [constructor|]. split; [lia|]. auto 6.
Qed.

Lemma token_loop_no_error f s e : token_loop f s <> inl e.
Proof.
  remember (length (rs s)) as n eqn:Hn. revert s Hn.
  induction n as [n IH] using lt_wf_ind. intros s Hn H.
  rewrite token_loop_unroll in H.
  destruct (token_body f s) as [e'|[[] s1]] eqn:B; [| |discriminate].
  - eapply token_body_no_error, B.
  - eapply (IH (length (rs s1))); [|reflexivity|exact H].
    rewrite Hn. clear -B. unfold token_body, writeRune in B. scan_cases; lia.
Qed.

Lemma bind_inr {A B} (m : scan A) (k : A -> scan B) s b s' :
  bind m k s = inr (b, s') ->
  exists a s1, m s = inr (a, s1) /\ k a s1 = inr (b, s').
Proof.
  unfold bind. destruct (m s) as [e|[a s1]]; [discriminate|]. eauto.
Qed.

Lemma bind_inl {A B} (m : scan A) (k : A -> scan B) s e :
  bind m k s = inl e ->
  m s = inl e \/ exists a s1, m s = inr (a, s1) /\ k a s1 = inl e.
Proof.
  unfold bind. destruct (m s) as [e'|[a s1]]; [intros [= ->]; auto|]. eauto.
Qed.

Lemma SkipSpace_blocked s : blocked s = true -> SkipSpace s = inr (tt, s).
Proof.
  intros B. rewrite SkipSpace_unroll.
  unfold SkipSpace_body, bind, getRune. unfold blocked in B. rewrite B.
  reflexivity.
Qed.

Lemma stops_at_not_blocked f s : stops_at f s -> blocked s = false.
Proof.
  intros (E & L & _). unfold blocked. rewrite E. simpl. apply Z.leb_gt, L.
Qed.

(* Before a rune that is not white space, SkipSpace reads nothing. *)
Lemma SkipSpace_stops s u s' :
  nlIsSpace s = false -> nlIsEnd s = false -> stops_at isSpace s ->
  SkipSpace s = inr (u, s') ->
  rs s' = rs s /\ count s' = count s /\ buf s' = buf s /\ same_conf s s' /\
  atEOF s' = false.
Proof.
  intros Hs He (E & L & r & rest & Hr & Sp) H.
  apply SkipSpace_spec in H as (ws & Hws & Fws & Hc & Hb & C & E' & _);
    [|assumption..].
  destruct ws as [|w ws].
  - simpl in *. split; [auto|]. split; [lia|]. split; [auto|]. split; [auto|].
    destruct (atEOF s') eqn:A; [|reflexivity].
    destruct E' as [?|E'']; [reflexivity|congruence|].
    rewrite <- Hws, Hr in E''. discriminate.
  - rewrite Hr in Hws. injection Hws as <- _.
    inversion Fws; subst. congruence.
Qed.

Lemma notEOF_inr s u s' :
  nlIsEnd s = false -> notEOF s = inr (u, s') ->
  rs s' = rs s /\ count s' = count s /\ buf s' = buf s /\ same_conf s s' /\
  atEOF s' = false /\ blocked s = false /\ rs s <> [].
Proof.
  intros He H. unfold notEOF in H. unfold blocked. scan_cases; eqb_subst.
  all: unfold same_conf; simpl; rewrite ?He in *; simpl in *.
  all: repeat split; try congruence; try lia.
Qed.

Lemma notEOF_inl s e : notEOF s = inl e -> e = io_EOF.
Proof. intros H. unfold notEOF in H. scan_cases; reflexivity. Qed.

Lemma notEOF_blocked s : blocked s = true -> notEOF s = inl io_EOF.
Proof.
  intros B. unfold notEOF, bind, getRune. unfold blocked in B. rewrite B.
  reflexivity.
Qed.

Lemma mustReadRune_inr s c s' :
  nlIsEnd s = false -> mustReadRune s = inr (c, s') ->
  rs s = c :: rs s' /\ count s' = count s + 1 /\ buf s' = buf s /\
  same_conf s s' /\ atEOF s = false /\ count s < argLimit s /\
  atEOF s' = false.
Proof.
  intros He H. unfold mustReadRune in H. scan_cases; eqb_subst.
  all: unfold same_conf; simpl; rewrite ?He in *; simpl in *.
  all: repeat split; try congruence; try lia.
Qed.

Lemma mustReadRune_inl s e : mustReadRune s = inl e -> e = io_ErrUnexpectedEOF.
Proof. intros H. unfold mustReadRune in H. scan_cases; reflexivity. Qed.


(* A verb %<wid>s that succeeds skipped white space and read a word of one
   to [wid] runes; a word shorter than [wid] ends the input or stands
   before white space. *)
Lemma doScanf_verb_s_spec wid s v s' :
  normal s -> 0 < wid ->
  doScanf_verb_s wid s = inr (v, s') ->
  normal s' /\ limit s' = limit s /\
  exists ws tok,
    rs s = ws ++ tok ++ rs s' /\
    Forall (fun r => isSpace r = true) ws /\
    Forall (fun r => isSpace r = false) tok /\
    tok <> [] /\ Z.of_nat (length tok) <= wid /\
    v = string_of_bytes (encode tok) /\
    (Z.of_nat (length tok) = wid \/
     forall c s'', mustReadRune s' = inr (c, s'') -> isSpace c = true).
Proof.
  intros (Hs & He & HA) Hwid H. unfold doScanf_verb_s in H.
  apply bind_inr in H as (? & sa & [= <- <-] & H).
  apply bind_inr in H as ([] & s1 & S1 & H).
  apply bind_inr in H as (? & ? & [= <- <-] & H).
  apply bind_inr in H as (? & ? & [= <- <-] & H).
  apply bind_inr in H as (v' & s4 & S4 & H).
  apply bind_inr in H as (? & ? & [= <- <-] & [= <- <-]).
  unfold scanOne, convertString in S4.
  apply bind_inr in S4 as ([] & s2 & S2 & S4).
  apply bind_inr in S4 as ([] & s2' & N2 & S4).
  apply bind_inr in S4 as (tok_bytes & s4' & T & [= <- <-]).
  unfold token in T. apply bind_inr in T as ([] & s3 & S3 & T).
  apply SkipSpace_spec in S1 as (ws & Hws & Fws & Hc1 & Hb1 & C1 & E1 & Stop1);
    [|assumption..].
  simpl in *. destruct C1 as (C1a & C1b & C1c & C1d & C1e). simpl in *.
  rewrite C1e, C1d in S2.
  match type of S2 with SkipSpace ?x = _ => set (s1b := x) in * end.
  destruct Stop1 as [B1|Stop1].
  { (* nothing to read after the white space: notEOF panics *)
    assert (B : blocked s1b = true).
    { unfold blocked in *. simpl. destruct (atEOF s1); [reflexivity|].
      simpl in *. apply Z.leb_le in B1. apply Z.leb_le.
      destruct (Z.ltb_spec (count s1 + wid) (limit s)); lia. }
    rewrite (SkipSpace_blocked _ B) in S2. injection S2 as <-.
    rewrite (notEOF_blocked _ B) in N2. discriminate. }
  assert (Stop1b : stops_at isSpace s1b).
  { destruct Stop1 as (Ea & La & r & rest & Hr & Sp).
    split; [exact Ea|]. split; [|eauto]. simpl.
    destruct (Z.ltb_spec (count s1 + wid) (limit s)); lia. }
  apply SkipSpace_stops in S2 as (R2 & K2 & B2 & C2 & A2);
    [|simpl; congruence..|assumption].
  destruct C2 as (C2a & C2b & C2c & C2d & C2e). simpl in *.
  apply notEOF_inr in N2 as (R2' & K2' & B2' & C2' & A2' & _ & _);
    [|congruence].
  destruct C2' as (C2a' & C2b' & C2c' & C2d' & C2e'). simpl in *.
  assert (Stop2' : stops_at isSpace s2').
  { destruct Stop1b as (_ & La & r & rest & Hr & Sp). simpl in *.
    split; [exact A2'|]. split; [|exists r, rest; split; congruence].
    rewrite K2', K2, C2c', C2c. exact La. }
  apply SkipSpace_stops in S3 as (R3 & K3 & B3 & C3 & A3);
    [|congruence..|assumption].
  destruct C3 as (C3a & C3b & C3c & C3d & C3e). simpl in *.
  apply token_loop_spec in T as (tok & R4 & F4 & K4 & B4 & C4 & E4 & L4 & Stop4);
    [|congruence].
  destruct C4 as (C4a & C4b & C4c & C4d & C4e). simpl in *.
  destruct Stop1 as (Ea & La & r & rest & Hr & Sp).
  set (A := if count s1 + wid <? limit s then count s1 + wid else limit s) in *.
  assert (HA4 : argLimit s4' = A) by congruence.
  assert (HK3 : count s3 = count s1) by congruence.
  assert (HR3 : rs s3 = r :: rest) by congruence.
  assert (HAlo : count s1 < A /\ A <= count s1 + wid /\ A <= limit s).
  { subst A. destruct (Z.ltb_spec (count s1 + wid) (limit s)); lia. }
  assert (Hne : tok <> []).
  { intros ->. simpl in *. destruct Stop4 as [B|(_ & _ & r' & rest' & Hr' & Sp')].
    - unfold blocked in B. apply orb_true_iff in B as [B|B].
      + destruct (E4 B); congruence.
      + apply Z.leb_le in B. lia.
    - unfold notSpace in Sp'. apply negb_false_iff in Sp'.
      congruence. }
  split; [unfold normal; simpl; split; [congruence|split; [congruence|reflexivity]]|].
  split; [congruence|].
  exists ws, tok.
  split; [rewrite Hws; f_equal; congruence|].
  split; [assumption|].
  split.
  { eapply Forall_impl; [exact F4|]. intros x Hx. unfold notSpace in Hx.
    apply negb_true_iff in Hx. exact Hx. }
  split; [assumption|].
  split; [destruct L4; [contradiction|lia]|].
  split; [rewrite B4, B3, B2', B2; reflexivity|].
  destruct (Z.eq_dec (Z.of_nat (length tok)) wid) as [|Hlt]; [left; assumption|].
  right. intros c s'' M.
  apply mustReadRune_inr in M as (Rc & _ & _ & _ & Ec & Lc & _);
    [|simpl; congruence].
  simpl in *.
  destruct Stop4 as [B|(_ & _ & r' & rest' & Hr' & Sp')].
  - unfold blocked in B. apply orb_true_iff in B as [B|B]; [congruence|].
    apply Z.leb_le in B. rewrite HA4 in B.
    assert (A = limit s); [|lia].
    subst A. destruct (Z.ltb_spec (count s1 + wid) (limit s)); [|reflexivity].
    destruct L4; [contradiction|]. lia.
  - unfold notSpace in Sp'. apply negb_false_iff in Sp'. congruence.
Qed.

Lemma doScanf_verb_s_error wid s e :
  doScanf_verb_s wid s = inl e ->
  e = io_EOF \/ e = errors_New "unexpected newline".
Proof.
  intros H. unfold doScanf_verb_s, scanOne, convertString, token in H.
  repeat match type of H with
         | bind _ _ _ = inl _ =>
           apply bind_inl in H as [H|(? & ? & _ & H)]
         end;
    try discriminate;
    first [ apply SkipSpace_error in H; auto
          | apply notEOF_inl in H; auto
          | apply token_loop_no_error in H; contradiction ].
Qed.

Lemma doScanf_literal_spec fmtc s u s' :
  normal s -> doScanf_literal fmtc s = inr (u, s') ->
  normal s' /\ limit s' = limit s /\ rs s = fmtc :: rs s'.
Proof.
  intros (Hs & He & HA) H. unfold doScanf_literal, advance_literal in H.
  apply bind_inr in H as (w & s1 & H & W).
  apply bind_inr in H as (c & s2 & M & H).
  apply mustReadRune_inr in M as (R & _ & _ & C & _); [|assumption].
  destruct C as (Ca & Cb & Cc & Cd & _).
  destruct (Z.eqb_spec fmtc c) as [->|Hne]; simpl in H.
  - injection H as <- <-. injection W as <- <-.
    unfold normal. repeat split; congruence.
  - apply bind_inr in H as (? & ? & _ & [= <- <-]). discriminate.
Qed.

Lemma doScanf_literal_error fmtc s e :
  doScanf_literal fmtc s = inl e ->
  e = io_ErrUnexpectedEOF \/ e = errors_New "input does not match format".
Proof.
  intros H. unfold doScanf_literal, advance_literal in H.
  apply bind_inl in H as [H|(w & s1 & _ & H)].
  - apply bind_inl in H as [H|(c & s2 & _ & H)].
    + apply mustReadRune_inl in H. auto.
    + destruct (negb (fmtc =? c)); [|discriminate].
      apply bind_inl in H as [H|(? & ? & _ & H)]; discriminate.
  - destruct w; [discriminate|]. injection H as <-. auto.
Qed.

Lemma newScanState_normal input : normal (newScanState input false false).
Proof. unfold normal. auto. Qed.

(* The inputs on which Sscanf with "%2s_%2s" reports no error: white space,
   two runes that are not white space, an underscore, white space, and one
   or two runes that are not white space. *)
Lemma doScanf_2s_2s_success input n lang local :
  doScanf_2s_2s (newScanState input false false) = (n, lang, local, None) ->
  n = 2 /\
  exists ws x1 x2 ws' ys rest,
    input = ws ++ [x1; x2; 95] ++ ws' ++ ys ++ rest /\
    Forall (fun r => isSpace r = true) ws /\
    isSpace x1 = false /\ isSpace x2 = false /\
    Forall (fun r => isSpace r = true) ws' /\
    Forall (fun r => isSpace r = false) ys /\
    (1 <= length ys <= 2)%nat /\
    lang = string_of_bytes (encode [x1; x2]) /\
    local = string_of_bytes (encode ys).
Proof.
  unfold doScanf_2s_2s. intros H.
  destruct (doScanf_verb_s 2 _) as [?|[lang' s1]] eqn:V1; [discriminate|].
  destruct (doScanf_literal 95 s1) as [?|[[] s2]] eqn:L; [discriminate|].
  destruct (doScanf_verb_s 2 s2) as [?|[local' s3]] eqn:V2; [discriminate|].
  injection H as <- <- <-. split; [reflexivity|].
  apply doScanf_verb_s_spec in V1
    as (N1 & _ & ws & tok & R1 & Fws & Ftok & Hne & Hlen & -> & Hfull);
    [|apply newScanState_normal|lia].
  pose proof L as L'.
  apply doScanf_literal_spec in L as (N2 & _ & R2); [|assumption].
  apply doScanf_verb_s_spec in V2
    as (_ & _ & ws' & ys & R3 & Fws' & Fys & Hne' & Hlen' & -> & _);
    [|assumption|lia].
  assert (Hfull' : Z.of_nat (length tok) = 2).
  { destruct Hfull as [|Hsp]; [assumption|]. exfalso.
    unfold doScanf_literal, advance_literal in L'.
    apply bind_inr in L' as (w & s1' & L' & W).
    apply bind_inr in L' as (c & s2' & M & L').
    pose proof (Hsp _ _ M) as Hc.
    destruct (Z.eqb_spec 95 c) as [<-|Hc']; [discriminate Hc|].
    simpl in L'. apply bind_inr in L' as (? & ? & _ & [= <- <-]).
    discriminate. }
  destruct tok as [|x1 [|x2 [|x3 tok]]]; simpl in Hfull'; try lia.
  inversion Ftok as [|? ? Hx1 Ftok']; subst.
  inversion Ftok' as [|? ? Hx2 _]; subst.
  exists ws, x1, x2, ws', ys, (rs s3).
  simpl in R1. rewrite R1, R2, R3. simpl.
  split; [reflexivity|]. repeat (split; [assumption|]).
  split; [|auto].
  destruct ys; [contradiction|]. simpl length in *. lia.
Qed.

Lemma doScanf_2s_2s_error s n lang local e :
  doScanf_2s_2s s = (n, lang, local, Some e) ->
  e = io_EOF \/ e = io_ErrUnexpectedEOF \/
  e = errors_New "unexpected newline" \/
  e = errors_New "input does not match format".
Proof.
  unfold doScanf_2s_2s. intros H.
  destruct (doScanf_verb_s 2 s) as [e1|[lang' s1]] eqn:V1.
  { injection H as _ _ _ <-. apply doScanf_verb_s_error in V1. tauto. }
  destruct (doScanf_literal 95 s1) as [e2|[[] s2]] eqn:L.
  { injection H as _ _ _ <-. apply doScanf_literal_error in L. tauto. }
  destruct (doScanf_verb_s 2 s2) as [e3|[local' s3]] eqn:V2; [|discriminate].
  injection H as _ _ _ <-. apply doScanf_verb_s_error in V2. tauto.
Qed.

Lemma doScanf_2s_2s_count s n lang local :
  doScanf_2s_2s s = (n, lang, local, None) -> n = 2.
Proof.
  unfold doScanf_2s_2s. intros H.
  repeat match type of H with
         | context [match ?x with _ => _ end] => destruct x as [?|[? ?]]
         end; congruence.
Qed.

(** Running the scanner forward on an input that matches. *)

Lemma isSpace_false_eqb r :
  isSpace r = false -> (r =? 13) = false /\ (r =? 10) = false.
Proof.
  intros H. split; apply Z.eqb_neq; intros ->; discriminate H.
Qed.

Lemma SkipSpace_nonspace s r rest :
  nlIsEnd s = false -> atEOF s = false -> count s < argLimit s ->
  rs s = r :: rest -> isSpace r = false ->
  SkipSpace s = inr (tt, s).
Proof.
  intros He Ea L Hr Sp. rewrite SkipSpace_unroll.
  destruct (isSpace_false_eqb r Sp) as [E13 E10].
  destruct s as [rs0 b c a nsp ne al li mw]; simpl in *; subst.
  unfold SkipSpace_body, bind, getRune, UnreadRune, ret. simpl.
  destruct (Z.leb_spec al c); [lia|].
  rewrite E13, E10, Sp. simpl.
  replace (c + 1 - 1) with c by lia. reflexivity.
Qed.

Lemma notEOF_readable s r rest :
  nlIsEnd s = false -> atEOF s = false -> count s < argLimit s ->
  rs s = r :: rest ->
  notEOF s = inr (tt, s).
Proof.
  intros He Ea L Hr.
  destruct s as [rs0 b c a nsp ne al li mw]; simpl in *; subst.
  unfold notEOF, bind, getRune, UnreadRune, ret. simpl.
  destruct (Z.leb_spec al c); [lia|]. simpl.
  replace (c + 1 - 1) with c by lia. reflexivity.
Qed.

(* The loop of token on a word that fills the width of the operand. *)
Lemma token_loop_full tok : forall rest b c A nsp li mw,
  Forall (fun r => isSpace r = false) tok ->
  A = c + Z.of_nat (length tok) ->
  token_loop notSpace (mkss (tok ++ rest) b c false nsp false A li mw)
  = inr (b ++ encode tok,
         mkss rest (b ++ encode tok) A false nsp false A li mw).
Proof.
  induction tok as [|r tok IH]; intros rest b c A nsp li mw F HA.
  - assert (A = c) as -> by (simpl in HA; lia).
    rewrite token_loop_unroll.
    unfold token_body, bind, getRune. simpl.
    destruct (Z.leb_spec c c); [|lia].
    unfold ret, encode. simpl. rewrite app_nil_r. reflexivity.
  - inversion F as [|? ? Hr F']; subst.
    rewrite token_loop_unroll.
    assert (Hn : notSpace r = true) by (unfold notSpace; rewrite Hr; reflexivity).
    unfold token_body, bind, getRune, writeRune, UnreadRune. simpl app.
    cbn [atEOF argLimit count rs nlIsEnd buf nlIsSpace limit maxWid orb andb].
    destruct (Z.leb_spec (c + Z.of_nat (length (r :: tok))) c);
      [simpl length in *; lia|].
    rewrite Hn. cbn [negb ret].
    cbn [atEOF argLimit count rs nlIsEnd buf nlIsSpace limit maxWid orb andb].
    rewrite IH by (assumption || (simpl length; lia)).
    unfold encode. cbn [map concat]. rewrite !app_assoc. reflexivity.
Qed.

(* A verb %<wid>s on a word of [wid] runes. *)
Lemma doScanf_verb_s_full wid tok rest b c li mw :
  Forall (fun r => isSpace r = false) tok ->
  0 < wid -> Z.of_nat (length tok) = wid -> c + wid < li ->
  doScanf_verb_s wid (mkss (tok ++ rest) b c false false false li li mw)
  = inr (string_of_bytes (encode tok),
         mkss rest (encode tok) (c + wid) false false false li li wid).
Proof.
  intros F Hwid Hlen Hli.
  destruct tok as [|r0 tok']; [simpl in Hlen; lia|].
  inversion F as [|? ? Hr0 _]; subst.
  unfold doScanf_verb_s, bind, set_maxWid, set_argLimit. simpl app.
  cbn [atEOF argLimit count rs nlIsEnd buf nlIsSpace limit maxWid].
  rewrite (SkipSpace_nonspace _ r0 (tok' ++ rest)) by (simpl; auto; lia).
  cbn [atEOF argLimit count rs nlIsEnd buf nlIsSpace limit maxWid].
  destruct (Z.ltb_spec (c + Z.of_nat (length (r0 :: tok'))) li); [|lia].
  unfold scanOne, convertString, token, bind.
  cbn [atEOF argLimit count rs nlIsEnd buf nlIsSpace limit maxWid].
  rewrite (SkipSpace_nonspace _ r0 (tok' ++ rest)) by (simpl; auto; lia).
  rewrite (notEOF_readable _ r0 (tok' ++ rest)) by (simpl; auto; lia).
  rewrite (SkipSpace_nonspace _ r0 (tok' ++ rest)) by (simpl; auto; lia).
  change (r0 :: tok' ++ rest) with ((r0 :: tok') ++ rest).
  rewrite token_loop_full by (assumption || reflexivity).
  reflexivity.
Qed.

Lemma doScanf_literal_match fmtc rest b c li mw :
  c < li ->
  doScanf_literal fmtc (mkss (fmtc :: rest) b c false false false li li mw)
  = inr (tt, mkss rest b (c + 1) false false false li li mw).
Proof.
  intros Hli.
  unfold doScanf_literal, advance_literal, mustReadRune, bind, getRune, ret.
  simpl. destruct (Z.leb_spec li c); [lia|].
  rewrite Z.eqb_refl. reflexivity.
Qed.

(* Sscanf with "%2s_%2s" on two runes, an underscore, two runes, and
   whatever follows: none of the four runes being white space. *)
Lemma Sscanf_matching x1 x2 y1 y2 rest :
  isSpace x1 = false -> isSpace x2 = false ->
  isSpace y1 = false -> isSpace y2 = false ->
  doScanf_2s_2s (newScanState (x1 :: x2 :: 95 :: y1 :: y2 :: rest) false false)
  = (2, string_of_bytes (encode [x1; x2]), string_of_bytes (encode [y1; y2]),
     None).
Proof.
  intros X1 X2 Y1 Y2. unfold doScanf_2s_2s, newScanState.
  change (x1 :: x2 :: 95 :: y1 :: y2 :: rest)
    with ([x1; x2] ++ 95 :: [y1; y2] ++ rest).
  rewrite doScanf_verb_s_full
    by (repeat constructor; try assumption; vm_compute; reflexivity).
  rewrite doScanf_literal_match by (vm_compute; reflexivity).
  rewrite doScanf_verb_s_full
    by (repeat constructor; try assumption; vm_compute; reflexivity).
  reflexivity.
Qed.

End fmt_facts.

(** ** The context *)

Module intergo_facts.

Lemma translation_Some l text v :
  translation l text = Some v <-> index "" l text = v /\ v <> "".
Proof.
  unfold translation, index. destruct l as [m|]; simpl.
  - destruct (m !! text) as [w|]; simpl.
    + destruct (decide (w = "")) as [->|Hw]; split.
      * discriminate.
      * intros [<- H]. contradiction.
      * intros [= <-]. auto.
      * intros [<- _]. reflexivity.
    + split; [discriminate | intros [<- H]; contradiction].
  - split; [discriminate | intros [<- H]; contradiction].
Qed.

Lemma translation_None l text :
  translation l text = None <-> index "" l text = "".
Proof.
  unfold translation, index. destruct l as [m|]; simpl; [|tauto].
  destruct (m !! text) as [w|]; simpl; [|tauto].
  destruct (decide (w = "")) as [->|Hw]; split; auto;
    intros; (discriminate || contradiction).
Qed.

Lemma range_lookup_Some text ord v :
  range_lookup text ord = Some v ->
  exists pre k l post,
    ord = pre ++ (k, l) :: post /\
    Forall (fun e => translation (snd e) text = None) pre /\
    translation l text = Some v.
Proof.
  induction ord as [|[k l] ord IH]; [discriminate|]. simpl.
  case_bool_decide as Hne.
  - intros [= <-]. exists [], k, l, ord.
    split; [reflexivity|]. split; [constructor|].
    apply translation_Some. auto.
  - intros H. destruct (IH H) as (pre & k' & l' & post & -> & F & T).
    exists ((k, l) :: pre), k', l', post.
    split; [reflexivity|]. split; [|assumption].
    constructor; [|assumption]. simpl. apply translation_None.
    destruct (decide (index "" l text = "")); [assumption|contradiction].
Qed.

Lemma range_lookup_None text ord :
  range_lookup text ord = None ->
  Forall (fun e => translation (snd e) text = None) ord.
Proof.
  induction ord as [|[k l] ord IH]; [constructor|]. simpl.
  case_bool_decide as Hne; [discriminate|]. intros H.
  constructor; [|auto]. simpl. apply translation_None.
  destruct (decide (index "" l text = "")); [assumption|contradiction].
Qed.

(* What the loop over a group returns, for any order range may take. *)
Lemma range_lookup_spec (g : LanguageObj) ord text :
  range_of (Some g) ord ->
  match range_lookup text ord with
  | Some v => first_match g ord text v
  | None => no_match g text
  end.
Proof.
  unfold range_of, entries. intros P.
  destruct (range_lookup text ord) as [v|] eqn:R.
  - apply range_lookup_Some in R as (pre & k & l & post & -> & F & T).
    exists pre, k, l, post. split; [reflexivity|]. split; [assumption|].
    split; [|assumption].
    apply elem_of_map_to_list. rewrite <- P.
    apply elem_of_app. right. apply elem_of_cons. left. reflexivity.
  - apply range_lookup_None in R. intros k l Hkl.
    apply elem_of_map_to_list in Hkl. rewrite <- P in Hkl.
    rewrite Forall_forall in R. apply (R (k, l)). assumption.
Qed.

End intergo_facts.

(** ** The locale parser *)

Module parse_facts.
Import fmt fmt_facts utf8_facts.

Lemma parseLocaleString_inr locale lang local :
  parseLocaleString locale = inr (lang, local) <->
  Sscanf_2s_2s locale = (2, lang, local, None).
Proof.
  unfold parseLocaleString.
  destruct (Sscanf_2s_2s locale) as [[[n lang'] local'] [e|]] eqn:S.
  - split; [discriminate | intros [= _ _ _]].
  - pose proof (doScanf_2s_2s_count _ _ _ _ S) as ->. simpl.
    split; intros [= -> ->]; reflexivity.
Qed.

(* A parse that succeeds found the shape of a locale, a language of two
   characters and a region of one or two. *)
Lemma parseLocaleString_success locale lang local :
  parseLocaleString locale = inr (lang, local) ->
  locale_shaped locale /\ has_underscore locale = true /\
  (4 <= RuneCountInString locale)%nat /\
  RuneCountInString lang = 2%nat /\
  (1 <= RuneCountInString local <= 2)%nat.
Proof.
  intros H. apply parseLocaleString_inr in H. unfold Sscanf_2s_2s in H.
  apply doScanf_2s_2s_success in H
    as (_ & ws & x1 & x2 & ws' & ys & rest & R & Fws & X1 & X2 & Fws' & Fys
        & Hlen & -> & ->).
  pose proof (bytes_of_string_range locale) as Rg.
  assert (Rg0 : Forall (fun b => 0 <= b) (bytes_of_string locale))
    by (eapply Forall_impl; [exact Rg|]; simpl; intros; lia).
  destruct (runes_facts _ Rg0) as [V A].
  rewrite R in V.
  apply Forall_app in V as [_ V]. simpl in V.
  inversion V as [|? ? V1 V']; subst. inversion V' as [|? ? V2 V'']; subst.
  inversion V'' as [|? ? _ V3]; subst.
  apply Forall_app in V3 as [_ V3]. apply Forall_app in V3 as [Vys _].
  destruct ys as [|y ys]; [simpl in Hlen; lia|].
  inversion Fys as [|? ? Y _]; subst.
  split; [|split; [|split; [|split]]].
  - exists ws, x1, x2, ws', y, (ys ++ rest). rewrite R. simpl. auto 10.
  - unfold has_underscore. apply existsb_exists. exists 95.
    split; [|reflexivity]. apply A; [|lia]. rewrite R.
    apply in_or_app. right. simpl. auto.
  - unfold RuneCountInString. rewrite R. rewrite !length_app. simpl. lia.
  - unfold RuneCountInString.
    rewrite bytes_of_string_of_bytes by (apply encode_range; auto).
    rewrite <- (app_nil_r (encode _)), runes_encode by auto. reflexivity.
  - unfold RuneCountInString.
    rewrite bytes_of_string_of_bytes by (apply encode_range; auto).
    rewrite <- (app_nil_r (encode _)), runes_encode by auto.
    rewrite app_nil_r. exact Hlen.
Qed.

Lemma parseLocaleString_error locale err :
  parseLocaleString locale = inl err ->
  err = io_EOF \/ err = io_ErrUnexpectedEOF \/
  err = errors_New "unexpected newline" \/
  err = errors_New "input does not match format".
Proof.
  unfold parseLocaleString. intros H.
  destruct (Sscanf_2s_2s locale) as [[[n lang'] local'] [e|]] eqn:S.
  - injection H as <-. eapply doScanf_2s_2s_error, S.
  - pose proof (doScanf_2s_2s_count _ _ _ _ S) as ->. discriminate.
Qed.

Lemma nonspace_chars_2 s :
  nonspace_chars 2 s = true ->
  exists x1 x2, s = string_of_bytes (encode [x1; x2]) /\
    utf8.ValidRune x1 = true /\ utf8.ValidRune x2 = true /\
    isSpace x1 = false /\ isSpace x2 = false.
Proof.
  unfold nonspace_chars. intros H.
  apply andb_true_iff in H as [H E]. apply andb_true_iff in H as [L F].
  apply String.eqb_eq in E. apply Nat.eqb_eq in L.
  pose proof (bytes_of_string_range s) as Rg.
  assert (Rg0 : Forall (fun b => 0 <= b) (bytes_of_string s))
    by (eapply Forall_impl; [exact Rg|]; simpl; intros; lia).
  destruct (runes_facts _ Rg0) as [V _].
  destruct (runes (bytes_of_string s)) as [|x1 [|x2 [|x3 l]]];
    try discriminate L.
  simpl in F. unfold notSpace in F.
  apply andb_true_iff in F as [F1 F]. apply andb_true_iff in F as [F2 _].
  apply negb_true_iff in F1, F2.
  inversion V as [|? ? V1 V']; subst. inversion V' as [|? ? V2 _]; subst.
  exists x1, x2. auto 10.
Qed.

(* Parsing "L_R" followed by anything, for L and R of two characters that are
   not white space. *)
Lemma parseLocaleString_matching L R suffix :
  nonspace_chars 2 L = true -> nonspace_chars 2 R = true ->
  parseLocaleString (L +:+ "_" +:+ R +:+ suffix) = inr (L, R).
Proof.
  intros HL HR.
  apply nonspace_chars_2 in HL as (x1 & x2 & -> & V1 & V2 & X1 & X2).
  apply nonspace_chars_2 in HR as (y1 & y2 & -> & W1 & W2 & Y1 & Y2).
  apply parseLocaleString_inr. unfold Sscanf_2s_2s.
  rewrite !bytes_of_string_app.
  rewrite !bytes_of_string_of_bytes by (apply encode_range; auto).
  change (bytes_of_string "_") with (encode [95]).
  rewrite runes_encode by auto.
  rewrite runes_encode by (repeat constructor).
  rewrite runes_encode by auto.
  apply Sscanf_matching; assumption.
Qed.

Lemma append_empty_r s : s +:+ "" = s.
Proof.
  induction s as [|a s IH]; [reflexivity|].
  change (String a (s +:+ "") = String a s). f_equal. exact IH.
Qed.

End parse_facts.

(** ** The tests of the repository *)

Module tests.
Import examples.

(* TestAddLocale *)
Example TestAddLocale_pt :
  index "" (index None (deref (heap initTestingContext)
                          (index None (languages (ctx initTestingContext)) "pt"))
                  "BR") "hello" = "olá".
Proof. vm_compute. reflexivity. Qed.

Example TestAddLocale_eo :
  let st := after (AddLocale "eo_IN.UTF-8" (Some {[ "hello" := "saluton" ]})
                     initTestingContext) in
  index "" (index None (deref (heap st) (index None (languages (ctx st)) "eo"))
                  "IN") "hello" = "saluton".
Proof. vm_compute. reflexivity. Qed.

(* TestGetLocale *)
Example TestGetLocale_pt_BR :
  fst (GetFromLocale (listed initTestingContext (Some 1%positive))
         "hello" "pt_BR.UTF-8" initTestingContext) = ("olá", None).
Proof. vm_compute. reflexivity. Qed.

Example TestGetLocale_en_US :
  fst (GetFromLocale [] "hello" "en_US.UTF-8" initTestingContext)
  = ("hello", None).
Proof. vm_compute. reflexivity. Qed.

Example TestGetLocale_pt_PT :
  fst (GetFromLocale (listed initTestingContext (Some 1%positive))
         "hello" "pt_PT.UTF-8" initTestingContext) = ("olá", None).
Proof. vm_compute. reflexivity. Qed.

(* TestSetLocale *)
Example TestSetLocale_pt_BR :
  fst (Get (listed prefers_pt_BR (Some 1%positive)) "hello" prefers_pt_BR)
  = "olá".
Proof. vm_compute. reflexivity. Qed.

Example TestSetLocale_pt_PT :
  fst (Get (listed prefers_pt_PT (Some 1%positive)) "hello" prefers_pt_PT)
  = "olá".
Proof. vm_compute. reflexivity. Qed.

(* What the scanner makes of some inputs. *)
Example parse_examples :
  map parseLocaleString
      ["pt_BR"; "pt_BR.UTF-8"; "ab_c"; " ab_cd"; "ab_ cd"; "a__b"; "";
       "xx"; "xx_"; "a _bc"; "a_b"]
  = [inr ("pt", "BR"); inr ("pt", "BR"); inr ("ab", "c"); inr ("ab", "cd");
     inr ("ab", "cd"); inr ("a_", "b"); inl io_EOF;
     inl io_ErrUnexpectedEOF; inl io_EOF;
     inl (errors_New "input does not match format");
     inl (errors_New "input does not match format")].
Proof. vm_compute. reflexivity. Qed.

End tests.

(** ** The claims *)

Import intergo_facts parse_facts.

(** C1. [Get] returns the key unchanged when no preferred group is set;
    else the translation of the preferred table when it has one; else the
    first translation found among the tables of the preferred group, in the
    order range visits them; else the key unchanged.  A stored empty text
    counts as no translation. *)
Theorem Get_postcondition ord text st :
  range_of (deref (heap st) (preferedLang (ctx st))) ord ->
  match preferedLang (ctx st) with
  | None => fst (Get ord text st) = text
  | Some a =>
    let g := default ∅ (heap st !! a) in
    match translation (prefered (ctx st)) text with
    | Some v => fst (Get ord text st) = v
    | None =>
      (exists v, first_match g ord text v /\ fst (Get ord text st) = v) \/
      (no_match g text /\ fst (Get ord text st) = text)
    end
  end.
Proof.
  intros P. unfold Get.
  destruct (preferedLang (ctx st)) as [a|]; [|reflexivity].
  simpl in P. cbv zeta.
  pose proof (range_lookup_spec _ ord text P) as R.
  assert (F : (exists v, first_match (default ∅ (heap st !! a)) ord text v /\
                 fst (match range_lookup text ord with
                      | Some localTxt => (localTxt, st)
                      | None => (text, st)
                      end) = v) \/
              (no_match (default ∅ (heap st !! a)) text /\
               fst (match range_lookup text ord with
                    | Some localTxt => (localTxt, st)
                    | None => (text, st)
                    end) = text)).
  { destruct (range_lookup text ord) as [v|]; [left; exists v|right]; auto. }
  destruct (translation (prefered (ctx st)) text) as [v|] eqn:T.
  - apply translation_Some in T as [T Hv].
    destruct (prefered (ctx st)) as [m|]; [|simpl in T; congruence].
    rewrite T. case_bool_decide; [reflexivity|contradiction].
  - apply translation_None in T.
    destruct (prefered (ctx st)) as [m|]; [|exact F].
    rewrite T. case_bool_decide; [contradiction|exact F].
Qed.

Lemma Get_postcondition_witness :
  let st := examples.prefers_pt_PT in
  let ord := examples.listed st (preferedLang (ctx st)) in
  range_of (deref (heap st) (preferedLang (ctx st))) ord /\
  ((exists v, first_match (default ∅ (heap st !! 1%positive)) ord "hello" v /\
              fst (Get ord "hello" st) = v) \/
   (no_match (default ∅ (heap st !! 1%positive)) "hello" /\
    fst (Get ord "hello" st) = "hello")).
Proof.
  intros st ord.
  assert (P : range_of (deref (heap st) (preferedLang (ctx st))) ord)
    by (unfold range_of; reflexivity).
  split; [exact P|].
  exact (Get_postcondition ord "hello" st P).
Defined.

(** C2. [GetFromLocale] with a locale that parses: without a group for the
    language it returns the key and no error; with a group but no table for
    the region it returns the first translation found among the tables of
    the group, else the key; with a table for the region it returns the
    translation of that table, else the key, and never looks at the other
    regions. *)
Theorem GetFromLocale_postcondition ord text locale lang local st :
  parseLocaleString locale = inr (lang, local) ->
  range_of (deref (heap st) (index None (languages (ctx st)) lang)) ord ->
  match index None (languages (ctx st)) lang with
  | None => fst (GetFromLocale ord text locale st) = (text, None)
  | Some a =>
    let g := default ∅ (heap st !! a) in
    match index None (Some g) local with
    | None =>
      (exists v, first_match g ord text v /\
                 fst (GetFromLocale ord text locale st) = (v, None)) \/
      (no_match g text /\
       fst (GetFromLocale ord text locale st) = (text, None))
    | Some m =>
      fst (GetFromLocale ord text locale st)
      = (default text (translation (Some m) text), None)
    end
  end.
Proof.
  intros HP P. unfold GetFromLocale. rewrite HP.
  destruct (index None (languages (ctx st)) lang) as [a|]; [|reflexivity].
  simpl in P. cbv zeta. simpl deref.
  pose proof (range_lookup_spec _ ord text P) as R.
  destruct (index None (Some (default ∅ (heap st !! a))) local) as [m|] eqn:I.
  - destruct (translation (Some m) text) as [v|] eqn:T.
    + apply translation_Some in T as [T Hv]. rewrite T.
      case_bool_decide; [contradiction|reflexivity].
    + apply translation_None in T. rewrite T.
      case_bool_decide; [reflexivity|contradiction].
  - destruct (range_lookup text ord) as [v|]; [left; exists v|right]; auto.
Qed.

Lemma GetFromLocale_postcondition_witness :
  let st := examples.initTestingContext in
  let ord := examples.listed st (index None (languages (ctx st)) "pt") in
  parseLocaleString "pt_PT.UTF-8" = inr ("pt", "PT") /\
  range_of (deref (heap st) (index None (languages (ctx st)) "pt")) ord /\
  ((exists v, first_match (default ∅ (heap st !! 1%positive)) ord "hello" v /\
              fst (GetFromLocale ord "hello" "pt_PT.UTF-8" st) = (v, None)) \/
   (no_match (default ∅ (heap st !! 1%positive)) "hello" /\
    fst (GetFromLocale ord "hello" "pt_PT.UTF-8" st) = ("hello", None))).
Proof.
  intros st ord.
  assert (HP : parseLocaleString "pt_PT.UTF-8" = inr ("pt", "PT"))
    by (vm_compute; reflexivity).
  assert (P : range_of (deref (heap st) (index None (languages (ctx st)) "pt")) ord)
    by (unfold range_of; reflexivity).
  split; [exact HP|]. split; [exact P|].
  exact (GetFromLocale_postcondition ord "hello" "pt_PT.UTF-8" "pt" "PT" st HP P).
Defined.

(** C3 (as stated, refuted). An input of four characters parses: the region
    may have one character. *)
Lemma parse_accepts_short_input :
  (RuneCountInString "ab_c" < 5)%nat /\
  parseLocaleString "ab_c" = inr ("ab", "c").
Proof. split; vm_compute; [lia | reflexivity]. Qed.

(** C3 (amended). An input that lacks an underscore, or has fewer than four
    characters, or is not made of white space, two characters that are not
    white space, an underscore, white space and a character that is not
    white space, fails to parse, and [AddLocale], [SetPreferedLocale] and
    [GetFromLocale] return the error of the parser. *)
Theorem malformed_locale_rejected locale :
  has_underscore locale = false \/ (RuneCountInString locale < 4)%nat \/
  ~ locale_shaped locale ->
  exists err,
    parseLocaleString locale = inl err /\
    (forall entries st, AddLocale locale entries st = Return (Some err) st) /\
    (forall st, SetPreferedLocale locale st = (Some err, st)) /\
    (forall ord text st,
       GetFromLocale ord text locale st = ((text, Some err), st)).
Proof.
  intros H. destruct (parseLocaleString locale) as [err|[lang local]] eqn:HP.
  - exists err. unfold AddLocale, SetPreferedLocale, GetFromLocale.
    rewrite HP. auto.
  - exfalso. apply parseLocaleString_success in HP as (Sh & U & L & _).
    destruct H as [H|[H|H]]; [congruence | lia | contradiction].
Qed.

Lemma malformed_locale_rejected_witness :
  has_underscore "ptBR" = false /\
  exists err,
    parseLocaleString "ptBR" = inl err /\
    (forall entries st, AddLocale "ptBR" entries st = Return (Some err) st) /\
    (forall st, SetPreferedLocale "ptBR" st = (Some err, st)) /\
    (forall ord text st,
       GetFromLocale ord text "ptBR" st = ((text, Some err), st)).
Proof.
  split; [reflexivity|].
  apply (malformed_locale_rejected "ptBR"). left. reflexivity.
Defined.

(** C4 (as stated, refuted). A language of two characters, one of them a
    space, does not come back from the parser. *)
Lemma space_breaks_round_trip :
  RuneCountInString "a " = 2%nat /\ RuneCountInString "BR" = 2%nat /\
  parseLocaleString ("a " +:+ "_" +:+ "BR")
  = inl (errors_New "input does not match format").
Proof. repeat split; vm_compute; reflexivity. Qed.

(** C4 (amended). For L and R that are each the UTF-8 encoding of two
    characters, none of them white space, parsing "L_R" yields (L, R), and
    so does parsing "L_R.UTF-8". *)
Theorem parse_round_trip L R :
  nonspace_chars 2 L = true -> nonspace_chars 2 R = true ->
  parseLocaleString (L +:+ "_" +:+ R) = inr (L, R) /\
  parseLocaleString (L +:+ "_" +:+ R +:+ ".UTF-8") = inr (L, R).
Proof.
  intros HL HR. split.
  - rewrite <- (append_empty_r R) at 1.
    apply parseLocaleString_matching; assumption.
  - apply parseLocaleString_matching; assumption.
Qed.

Lemma parse_round_trip_witness :
  nonspace_chars 2 "pt" = true /\ nonspace_chars 2 "BR" = true /\
  parseLocaleString ("pt" +:+ "_" +:+ "BR") = inr ("pt", "BR") /\
  parseLocaleString ("pt" +:+ "_" +:+ "BR" +:+ ".UTF-8") = inr ("pt", "BR").
Proof.
  split; [reflexivity|]. split; [reflexivity|].
  apply (parse_round_trip "pt" "BR"); reflexivity.
Defined.

(** C5 (as stated, refuted). With the table of pt_BR preferred, a call of
    [SetPreferedLocale] for a language without a group succeeds and clears
    the preferred group, and the preferred table stays the one of pt_BR. *)
Lemma SetPreferedLocale_keeps_table :
  let st := examples.prefers_pt_BR in
  parseLocaleString "en_US" = inr ("en", "US") /\
  index None (languages (ctx st)) "en" = None /\
  fst (SetPreferedLocale "en_US" st) = None /\
  preferedLang (ctx (snd (SetPreferedLocale "en_US" st))) = None /\
  prefered (ctx (snd (SetPreferedLocale "en_US" st))) = examples.hello_pt /\
  examples.hello_pt <> None.
Proof.
  repeat split; try (vm_compute; reflexivity). discriminate.
Qed.

(** C5 (amended). After a successful [SetPreferedLocale] whose language has
    no group, the preferred group is absent and the preferred table is the
    one it was before the call; the map of languages and the groups are
    unchanged, and [Get] returns every key unchanged. *)
Theorem SetPreferedLocale_no_group st locale lang local :
  parseLocaleString locale = inr (lang, local) ->
  index None (languages (ctx st)) lang = None ->
  exists st',
    SetPreferedLocale locale st = (None, st') /\
    preferedLang (ctx st') = None /\
    prefered (ctx st') = prefered (ctx st) /\
    languages (ctx st') = languages (ctx st) /\
    heap st' = heap st /\
    forall ord text, Get ord text st' = (text, st').
Proof.
  intros HP HL. unfold SetPreferedLocale. rewrite HP. cbv zeta. rewrite HL.
  eexists. split; [reflexivity|]. simpl. auto 10.
Qed.

Lemma SetPreferedLocale_no_group_witness :
  let st := examples.prefers_pt_BR in
  parseLocaleString "en_US" = inr ("en", "US") /\
  index None (languages (ctx st)) "en" = None /\
  exists st',
    SetPreferedLocale "en_US" st = (None, st') /\
    preferedLang (ctx st') = None /\
    prefered (ctx st') = prefered (ctx st) /\
    languages (ctx st') = languages (ctx st) /\
    heap st' = heap st /\
    forall ord text, Get ord text st' = (text, st').
Proof.
  intros st.
  assert (HP : parseLocaleString "en_US" = inr ("en", "US"))
    by (vm_compute; reflexivity).
  assert (HL : index None (languages (ctx st)) "en" = None)
    by (vm_compute; reflexivity).
  split; [exact HP|]. split; [exact HL|].
  exact (SetPreferedLocale_no_group st "en_US" "en" "US" HP HL).
Defined.

(** C6. When the locale fails to parse, [AddLocale] and
    [SetPreferedLocale] return the error of the parser and leave the whole
    state as it was. *)
Theorem parse_failure_atomic locale err entries st :
  parseLocaleString locale = inl err ->
  AddLocale locale entries st = Return (Some err) st /\
  SetPreferedLocale locale st = (Some err, st).
Proof.
  intros HP. unfold AddLocale, SetPreferedLocale. rewrite HP. auto.
Qed.

Lemma parse_failure_atomic_witness :
  parseLocaleString "pt-BR" = inl (errors_New "input does not match format") /\
  AddLocale "pt-BR" examples.hello_pt examples.prefers_pt_BR
  = Return (Some (errors_New "input does not match format"))
           examples.prefers_pt_BR /\
  SetPreferedLocale "pt-BR" examples.prefers_pt_BR
  = (Some (errors_New "input does not match format"), examples.prefers_pt_BR).
Proof.
  assert (HP : parseLocaleString "pt-BR"
               = inl (errors_New "input does not match format"))
    by (vm_compute; reflexivity).
  split; [exact HP|].
  exact (parse_failure_atomic "pt-BR" _ examples.hello_pt
           examples.prefers_pt_BR HP).
Defined.

(** C7. A successful [AddLocale]: when the language has a group, the table
    of the region in that group becomes the given entries as a whole and the
    other regions keep their tables; when it has none, the language gets a
    new group that holds the table of that region only. *)
Theorem AddLocale_overwrites locale entries st st' :
  AddLocale locale entries st = Return None st' ->
  exists lang local,
    parseLocaleString locale = inr (lang, local) /\
    match index None (languages (ctx st)) lang with
    | Some a =>
      ctx st' = ctx st /\
      heap st' !! a = Some (<[local := entries]> (default ∅ (heap st !! a))) /\
      index None (deref (heap st') (Some a)) local = entries /\
      forall local', local' <> local ->
        index None (deref (heap st') (Some a)) local'
        = index None (deref (heap st) (Some a)) local'
    | None =>
      exists a,
        heap st !! a = None /\
        index None (languages (ctx st')) lang = Some a /\
        heap st' !! a = Some {[local := entries]}
    end.
Proof.
  unfold AddLocale.
  destruct (parseLocaleString locale) as [err|[lang local]]; [discriminate|].
  intros H. exists lang, local. split; [reflexivity|].
  destruct (index None (languages (ctx st)) lang) as [a|] eqn:I.
  - injection H as <-. simpl.
    rewrite !lookup_insert_eq. simpl.
    split; [reflexivity|]. split; [reflexivity|].
    split.
    + rewrite lookup_insert_eq. destruct entries; reflexivity.
    + intros local' Hne. rewrite lookup_insert_ne by congruence. reflexivity.
  - destruct (languages (ctx st)) as [langs|]; [|discriminate].
    injection H as <-. simpl.
    exists (fresh (dom (heap st))).
    split; [apply not_elem_of_dom, is_fresh|].
    rewrite !lookup_insert_eq. auto.
Qed.

Lemma AddLocale_overwrites_witness :
  let st := examples.initTestingContext in
  let entries : Locale := Some {[ "bye" := "tchau" ]} in
  let st' := examples.after (AddLocale "pt_BR" entries st) in
  AddLocale "pt_BR" entries st = Return None st' /\
  index "" (index None (deref (heap st) (Some 1%positive)) "BR") "hello"
  = "olá" /\
  index "" (index None (deref (heap st') (Some 1%positive)) "BR") "hello"
  = "" /\
  exists lang local,
    parseLocaleString "pt_BR" = inr (lang, local) /\
    match index None (languages (ctx st)) lang with
    | Some a =>
      ctx st' = ctx st /\
      heap st' !! a = Some (<[local := entries]> (default ∅ (heap st !! a))) /\
      index None (deref (heap st') (Some a)) local = entries /\
      forall local', local' <> local ->
        index None (deref (heap st') (Some a)) local'
        = index None (deref (heap st) (Some a)) local'
    | None =>
      exists a,
        heap st !! a = None /\
        index None (languages (ctx st')) lang = Some a /\
        heap st' !! a = Some {[local := entries]}
    end.
Proof.
  intros st entries st'.
  assert (H : AddLocale "pt_BR" entries st = Return None st')
    by (vm_compute; reflexivity).
  split; [exact H|].
  split; [vm_compute; reflexivity|]. split; [vm_compute; reflexivity|].
  exact (AddLocale_overwrites "pt_BR" entries st st' H).
Defined.

(* With a locale that parses and the map of languages allocated by [Init],
   [AddLocale] succeeds. *)
Lemma AddLocale_succeeds locale lang local entries st :
  parseLocaleString locale = inr (lang, local) ->
  languages (ctx st) <> None ->
  exists st', AddLocale locale entries st = Return None st'.
Proof.
  intros HP HL. unfold AddLocale. rewrite HP.
  destruct (index None (languages (ctx st)) lang); [eauto|].
  destruct (languages (ctx st)); [eauto|contradiction].
Qed.

(** C8 (as stated, refuted). Parsing "xxxxx" fails with the error
    "input does not match format" of [Sscanf], a message in which the input
    "xxxxx" does not occur. *)
Lemma parse_error_not_echoed :
  parseLocaleString "xxxxx" = inl (errors_New "input does not match format") /\
  Contains (Error (errors_New "input does not match format")) "xxxxx" = false.
Proof. split; vm_compute; reflexivity. Qed.

(* The input can still occur in the message, when it happens to be a part of
   one of the texts of [Sscanf]: "ex" fails with "unexpected EOF". *)
Lemma parse_error_echo_by_chance :
  parseLocaleString "ex" = inl io_ErrUnexpectedEOF /\
  Contains (Error io_ErrUnexpectedEOF) "ex" = true.
Proof. split; vm_compute; reflexivity. Qed.

(** C8 (amended). The error of a failed parse is the error that [Sscanf]
    reported for the input, returned unchanged; its message is one of the
    four fixed texts "EOF", "unexpected EOF", "unexpected newline" and
    "input does not match format", and it is never the message
    "unparsable locale string <input>", the only one that the parser builds
    from its input. *)
Theorem parse_error_message locale err :
  parseLocaleString locale = inl err ->
  (exists n lang local,
     fmt.Sscanf_2s_2s locale = (n, lang, local, Some err)) /\
  (Error err = "EOF" \/ Error err = "unexpected EOF" \/
   Error err = "unexpected newline" \/
   Error err = "input does not match format") /\
  Error err <> "unparsable locale string " +:+ locale.
Proof.
  unfold parseLocaleString. intros H.
  destruct (fmt.Sscanf_2s_2s locale) as [[[n lang] local] [e|]] eqn:S.
  - injection H as <-. split; [eauto|].
    apply fmt_facts.doScanf_2s_2s_error in S as [->|[->|[->| ->]]];
      (split; [auto|simpl; discriminate]).
  - apply fmt_facts.doScanf_2s_2s_count in S as ->. discriminate H.
Qed.

Lemma parse_error_message_witness :
  parseLocaleString "ex" = inl io_ErrUnexpectedEOF /\
  (exists n lang local,
     fmt.Sscanf_2s_2s "ex" = (n, lang, local, Some io_ErrUnexpectedEOF)) /\
  (Error io_ErrUnexpectedEOF = "EOF" \/
   Error io_ErrUnexpectedEOF = "unexpected EOF" \/
   Error io_ErrUnexpectedEOF = "unexpected newline" \/
   Error io_ErrUnexpectedEOF = "input does not match format") /\
  Error io_ErrUnexpectedEOF <> "unparsable locale string " +:+ "ex".
Proof.
  assert (HP : parseLocaleString "ex" = inl io_ErrUnexpectedEOF)
    by (vm_compute; reflexivity).
  split; [exact HP|].
  exact (parse_error_message "ex" io_ErrUnexpectedEOF HP).
Defined.

(** C9. [AutoSetPreferedLocale] calls [SetPreferedLocale] with the value of
    LC_ALL; when that succeeds it returns success whatever LANG holds; when
    it fails, as it does for an LC_ALL that is unset or empty, it calls
    [SetPreferedLocale] with the value of LANG and returns its result. *)
Theorem AutoSetPreferedLocale_spec Getenv st :
  (forall st',
     SetPreferedLocale (Getenv "LC_ALL") st = (None, st') ->
     AutoSetPreferedLocale Getenv st = (None, st') /\
     forall Getenv' : string -> string,
       Getenv' "LC_ALL" = Getenv "LC_ALL" ->
       AutoSetPreferedLocale Getenv' st = (None, st')) /\
  (forall err st',
     SetPreferedLocale (Getenv "LC_ALL") st = (Some err, st') ->
     st' = st /\
     AutoSetPreferedLocale Getenv st = SetPreferedLocale (Getenv "LANG") st') /\
  (Getenv "LC_ALL" = "" ->
   parseLocaleString (Getenv "LC_ALL") = inl io_EOF /\
   AutoSetPreferedLocale Getenv st = SetPreferedLocale (Getenv "LANG") st).
Proof.
  split; [|split].
  - intros st' H. unfold AutoSetPreferedLocale. split.
    + rewrite H. reflexivity.
    + intros Getenv' ->. rewrite H. reflexivity.
  - intros err st' H. unfold AutoSetPreferedLocale. rewrite H.
    split; [|reflexivity].
    unfold SetPreferedLocale in H.
    destruct (parseLocaleString (Getenv "LC_ALL")) as [e|[lang local]];
      congruence.
  - intros E. unfold AutoSetPreferedLocale. rewrite E.
    assert (HP : parseLocaleString "" = inl io_EOF) by (vm_compute; reflexivity).
    split; [exact HP|].
    unfold SetPreferedLocale at 1. rewrite HP. reflexivity.
Qed.

Lemma AutoSetPreferedLocale_spec_witness :
  let Getenv := fun v : string =>
    if String.eqb v "LANG" then "pt_BR.UTF-8" else "" in
  Getenv "LC_ALL" = "" /\
  AutoSetPreferedLocale Getenv examples.initTestingContext
  = SetPreferedLocale "pt_BR.UTF-8" examples.initTestingContext.
Proof.
  intros Getenv. split; [reflexivity|].
  exact (proj2 (proj2 (proj2 (AutoSetPreferedLocale_spec Getenv
                                examples.initTestingContext)) eq_refl)).
Defined.

(** C10. [Get] and [GetFromLocale] leave the state as it was: the map of
    languages, the groups, the preferred group and the preferred table. *)
Theorem reads_are_pure ord text locale st :
  snd (Get ord text st) = st /\
  snd (GetFromLocale ord text locale st) = st.
Proof.
  split.
  - unfold Get. repeat case_match; reflexivity.
  - unfold GetFromLocale. repeat case_match; reflexivity.
Qed.

(** ** Further properties of the scanner *)

Module fmt_more.
Import fmt fmt_facts utf8_facts.

(* The loop of token on a word that ends the input before the width of the
   operand is used up. *)
Lemma token_loop_eof tok : forall b c C A nsp li mw,
  Forall (fun r => isSpace r = false) tok ->
  C = c + Z.of_nat (length tok) -> C < A ->
  token_loop notSpace (mkss tok b c false nsp false A li mw)
  = inr (b ++ encode tok,
         mkss [] (b ++ encode tok) C true nsp false A li mw).
Proof.
  induction tok as [|r tok IH]; intros b c C A nsp li mw F HC HA.
  - assert (C = c) as -> by (simpl in HC; lia).
    rewrite token_loop_unroll.
    unfold token_body, bind, getRune. simpl.
    destruct (Z.leb_spec A c); [lia|].
    unfold ret, encode. simpl. rewrite app_nil_r. reflexivity.
  - inversion F as [|? ? Hr F']; subst.
    assert (Hn : notSpace r = true) by (unfold notSpace; rewrite Hr; reflexivity).
    rewrite token_loop_unroll.
    unfold token_body, bind, getRune, writeRune, UnreadRune.
    cbn [atEOF argLimit count rs nlIsEnd buf nlIsSpace limit maxWid orb andb].
    destruct (Z.leb_spec A c); [simpl length in *; lia|].
    rewrite Hn. cbn [negb ret].
    cbn [atEOF argLimit count rs nlIsEnd buf nlIsSpace limit maxWid orb andb].
    rewrite (IH _ _ (c + Z.of_nat (length (r :: tok))))
      by (assumption || (simpl length; lia)).
    unfold encode. cbn [map concat]. rewrite !app_assoc. reflexivity.
Qed.

(* A verb %<wid>s on a word shorter than [wid] that ends the input. *)
Lemma doScanf_verb_s_eof wid tok b c li mw :
  Forall (fun r => isSpace r = false) tok -> tok <> [] ->
  Z.of_nat (length tok) < wid -> c + wid < li ->
  doScanf_verb_s wid (mkss tok b c false false false li li mw)
  = inr (string_of_bytes (encode tok),
         mkss [] (encode tok) (c + Z.of_nat (length tok)) true false false
              li li wid).
Proof.
  intros F Hne Hlen Hli.
  destruct tok as [|r0 tok']; [contradiction|].
  inversion F as [|? ? Hr0 _]; subst.
  unfold doScanf_verb_s, bind, set_maxWid, set_argLimit.
  cbn [atEOF argLimit count rs nlIsEnd buf nlIsSpace limit maxWid].
  rewrite (SkipSpace_nonspace _ r0 tok') by (simpl; auto; lia).
  cbn [atEOF argLimit count rs nlIsEnd buf nlIsSpace limit maxWid].
  destruct (Z.ltb_spec (c + wid) li); [|lia].
  unfold scanOne, convertString, token, bind.
  cbn [atEOF argLimit count rs nlIsEnd buf nlIsSpace limit maxWid].
  rewrite (SkipSpace_nonspace _ r0 tok') by (simpl; auto; lia).
  rewrite (notEOF_readable _ r0 tok') by (simpl; auto; lia).
  rewrite (SkipSpace_nonspace _ r0 tok') by (simpl; auto; lia).
  rewrite (token_loop_eof _ _ _ (c + Z.of_nat (length (r0 :: tok'))))
    by (assumption || reflexivity || lia).
  reflexivity.
Qed.

(* Sscanf with "%2s_%2s" on two runes, an underscore and one last rune. *)
Lemma Sscanf_matching_short x1 x2 y :
  isSpace x1 = false -> isSpace x2 = false -> isSpace y = false ->
  doScanf_2s_2s (newScanState [x1; x2; 95; y] false false)
  = (2, string_of_bytes (encode [x1; x2]), string_of_bytes (encode [y]), None).
Proof.
  intros X1 X2 Y. unfold doScanf_2s_2s, newScanState.
  change [x1; x2; 95; y] with ([x1; x2] ++ 95 :: [y]).
  rewrite doScanf_verb_s_full
    by (repeat constructor; try assumption; vm_compute; reflexivity).
  rewrite doScanf_literal_match by (vm_compute; reflexivity).
  rewrite doScanf_verb_s_eof
    by (repeat constructor; try assumption; try discriminate;
        vm_compute; reflexivity).
  reflexivity.
Qed.

(* A first rune that is a newline makes the first verb panic. *)
Lemma doScanf_2s_2s_newline rest :
  doScanf_2s_2s (newScanState (10 :: rest) false false)
  = (0, "", "", Some (errors_New "unexpected newline")).
Proof.
  unfold doScanf_2s_2s, doScanf_verb_s, bind, set_maxWid, newScanState.
  cbn [atEOF argLimit count rs nlIsEnd buf nlIsSpace limit maxWid].
  rewrite SkipSpace_unroll. reflexivity.
Qed.

End fmt_more.

(** ** Further properties of the parser *)

Module parse_more.
Import fmt fmt_facts utf8_facts parse_facts fmt_more.

Lemma runes_encode_all l :
  Forall (fun r => utf8.ValidRune r = true) l -> runes (encode l) = l.
Proof.
  intros V. rewrite <- (app_nil_r (encode l)), runes_encode by exact V.
  apply app_nil_r.
Qed.

Lemma runes_bytes_encode l :
  Forall (fun r => utf8.ValidRune r = true) l ->
  runes (bytes_of_string (string_of_bytes (encode l))) = l.
Proof.
  intros V. rewrite bytes_of_string_of_bytes by (apply encode_range; exact V).
  rewrite <- (app_nil_r (encode l)), runes_encode by exact V.
  apply app_nil_r.
Qed.

Lemma nonspace_chars_encode l :
  Forall (fun r => utf8.ValidRune r = true) l ->
  Forall (fun r => isSpace r = false) l ->
  nonspace_chars (length l) (string_of_bytes (encode l)) = true.
Proof.
  intros V F. unfold nonspace_chars. rewrite runes_bytes_encode by exact V.
  rewrite Nat.eqb_refl, String.eqb_refl, andb_true_r. simpl.
  apply forallb_forall. intros r Hr. unfold notSpace.
  rewrite Forall_forall in F. rewrite F; [reflexivity|].
  apply list_elem_of_In. exact Hr.
Qed.

(* The runes of the two tokens of a successful parse. *)
Lemma parseLocaleString_tokens locale lang local :
  parseLocaleString locale = inr (lang, local) ->
  exists x1 x2 ys,
    lang = string_of_bytes (encode [x1; x2]) /\
    local = string_of_bytes (encode ys) /\
    Forall (fun r => utf8.ValidRune r = true) (x1 :: x2 :: ys) /\
    Forall (fun r => isSpace r = false) (x1 :: x2 :: ys) /\
    (length ys = 1 \/ length ys = 2)%nat.
Proof.
  intros H. apply parseLocaleString_inr in H. unfold Sscanf_2s_2s in H.
  apply doScanf_2s_2s_success in H
    as (_ & ws & x1 & x2 & ws' & ys & rest & R & Fws & X1 & X2 & Fws' & Fys
        & Hlen & -> & ->).
  pose proof (bytes_of_string_range locale) as Rg.
  assert (Rg0 : Forall (fun b => 0 <= b) (bytes_of_string locale))
    by (eapply Forall_impl; [exact Rg|]; simpl; intros; lia).
  destruct (runes_facts _ Rg0) as [V _]. rewrite R in V.
  apply Forall_app in V as [_ V]. simpl in V.
  inversion V as [|? ? V1 V']; subst. inversion V' as [|? ? V2 V'']; subst.
  inversion V'' as [|? ? _ V3]; subst.
  apply Forall_app in V3 as [_ V3]. apply Forall_app in V3 as [Vys _].
  exists x1, x2, ys. split; [reflexivity|]. split; [reflexivity|].
  split; [auto|]. split; [auto|]. lia.
Qed.

End parse_more.

(** ** Further properties *)

Import fmt_more parse_more.

(** X1. A successful parse returns a language that is the UTF-8 encoding of
    two characters and a region that is the UTF-8 encoding of one or two,
    none of them white space, whatever bytes the input holds. *)
Theorem parse_result_tokens locale lang local :
  parseLocaleString locale = inr (lang, local) ->
  nonspace_chars 2 lang = true /\
  (nonspace_chars 1 local = true \/ nonspace_chars 2 local = true).
Proof.
  intros H.
  apply parseLocaleString_tokens in H as (x1 & x2 & ys & -> & -> & V & F & L).
  inversion V as [|? ? V1 V']; subst. inversion V' as [|? ? V2 Vys]; subst.
  inversion F as [|? ? F1 F']; subst. inversion F' as [|? ? F2 Fys]; subst.
  split.
  - apply (nonspace_chars_encode [x1; x2]); auto.
  - destruct L as [L|L]; [left|right]; rewrite <- L;
      apply nonspace_chars_encode; assumption.
Qed.

Lemma parse_result_tokens_witness :
  parseLocaleString "  pt_B" = inr ("pt", "B") /\
  nonspace_chars 2 "pt" = true /\
  (nonspace_chars 1 "B" = true \/ nonspace_chars 2 "B" = true).
Proof.
  assert (H : parseLocaleString "  pt_B" = inr ("pt", "B"))
    by (vm_compute; reflexivity).
  split; [exact H|].
  exact (parse_result_tokens "  pt_B" "pt" "B" H).
Defined.

(** X2. The pair of a successful parse, written back as language, underscore,
    region, parses to the same pair. *)
Theorem parse_canonical locale lang local :
  parseLocaleString locale = inr (lang, local) ->
  parseLocaleString (lang +:+ "_" +:+ local) = inr (lang, local).
Proof.
  intros H.
  apply parseLocaleString_tokens in H as (x1 & x2 & ys & -> & -> & V & F & L).
  inversion V as [|? ? V1 V']; subst. inversion V' as [|? ? V2 Vys]; subst.
  inversion F as [|? ? F1 F']; subst. inversion F' as [|? ? F2 Fys]; subst.
  apply parseLocaleString_inr. unfold fmt.Sscanf_2s_2s.
  rewrite !utf8_facts.bytes_of_string_app.
  rewrite !utf8_facts.bytes_of_string_of_bytes
    by (apply utf8_facts.encode_range; auto).
  change (bytes_of_string "_") with (encode [95]).
  rewrite utf8_facts.runes_encode by auto.
  rewrite utf8_facts.runes_encode by (repeat constructor).
  rewrite runes_encode_all by assumption.
  destruct ys as [|y1 [|y2 [|y3 ys]]]; simpl in L; try lia; simpl app.
  - inversion Fys; subst. apply Sscanf_matching_short; assumption.
  - inversion Fys as [|? ? Y1 Fys']; subst. inversion Fys'; subst.
    apply fmt_facts.Sscanf_matching; assumption.
Qed.

Lemma parse_canonical_witness :
  parseLocaleString " pt_ BR.UTF-8" = inr ("pt", "BR") /\
  parseLocaleString ("pt" +:+ "_" +:+ "BR") = inr ("pt", "BR").
Proof.
  assert (H : parseLocaleString " pt_ BR.UTF-8" = inr ("pt", "BR"))
    by (vm_compute; reflexivity).
  split; [exact H|].
  exact (parse_canonical " pt_ BR.UTF-8" "pt" "BR" H).
Defined.

(** X3. A locale string that starts with a newline fails to parse with the
    error "unexpected newline", whatever follows. *)
Theorem parse_leading_newline s :
  parseLocaleString (String "010"%char s)
  = inl (errors_New "unexpected newline").
Proof.
  unfold parseLocaleString, fmt.Sscanf_2s_2s.
  change (bytes_of_string (String "010"%char s))
    with (10 :: bytes_of_string s).
  destruct (utf8_facts.runes_cons 10 (bytes_of_string s)) as (t' & -> & _).
  rewrite utf8_facts.DecodeRune_1 by lia. cbn [fst].
  rewrite doScanf_2s_2s_newline. reflexivity.
Qed.

(** X4. With a locale that parses, [AddLocale] panics exactly when the map
    of languages is nil, that is when [Init] was never called. *)
Theorem AddLocale_needs_Init locale lang local entries st :
  parseLocaleString locale = inr (lang, local) ->
  (AddLocale locale entries st = Panic "assignment to entry in nil map"
   <-> languages (ctx st) = None).
Proof.
  intros HP. unfold AddLocale. rewrite HP.
  destruct (languages (ctx st)) as [langs|] eqn:L; simpl.
  - destruct (default None (langs !! lang)); split; discriminate.
  - split; reflexivity.
Qed.

Lemma AddLocale_needs_Init_witness :
  parseLocaleString "pt_BR" = inr ("pt", "BR") /\
  (AddLocale "pt_BR" examples.hello_pt examples.empty_state
   = Panic "assignment to entry in nil map"
   <-> languages (ctx examples.empty_state) = None).
Proof.
  assert (H : parseLocaleString "pt_BR" = inr ("pt", "BR"))
    by (vm_compute; reflexivity).
  split; [exact H|].
  exact (AddLocale_needs_Init "pt_BR" "pt" "BR" examples.hello_pt
           examples.empty_state H).
Defined.

(* What a successful AddLocale leaves: the language refers to a group whose
   content is the old one with the region set to the entries. *)
Lemma AddLocale_inv locale entries st st' :
  AddLocale locale entries st = Return None st' ->
  exists lang local a g,
    parseLocaleString locale = inr (lang, local) /\
    index None (languages (ctx st')) lang = Some a /\
    heap st' = <[a := <[local := entries]> g]> (heap st) /\
    prefered (ctx st') = prefered (ctx st) /\
    preferedLang (ctx st') = preferedLang (ctx st) /\
    ((index None (languages (ctx st)) lang = Some a /\
      g = default ∅ (heap st !! a) /\ ctx st' = ctx st) \/
     (index None (languages (ctx st)) lang = None /\ g = ∅ /\
      heap st !! a = None /\
      exists langs, languages (ctx st) = Some langs /\
        languages (ctx st') = Some (<[lang := Some a]> langs))).
Proof.
  unfold AddLocale.
  destruct (parseLocaleString locale) as [err|[lang local]]; [discriminate|].
  intros H.
  destruct (index None (languages (ctx st)) lang) as [a|] eqn:I.
  - injection H as <-. exists lang, local, a, (default ∅ (heap st !! a)).
    simpl. auto 10.
  - destruct (languages (ctx st)) as [langs|] eqn:L; [|discriminate].
    injection H as <-. exists lang, local, (fresh (dom (heap st))), ∅.
    simpl. rewrite lookup_insert_eq. simpl.
    split; [reflexivity|]. split; [reflexivity|].
    split; [rewrite insert_empty; reflexivity|].
    split; [reflexivity|]. split; [reflexivity|]. right.
    split; [exact I|]. split; [reflexivity|].
    split; [apply not_elem_of_dom, is_fresh|]. eauto.
Qed.

(** X5. After a successful [AddLocale] with entries that are not nil,
    [GetFromLocale] with the same locale string returns the translation of
    those entries, or the key when they have none; the other regions of the
    language are not consulted. *)
Theorem AddLocale_then_GetFromLocale locale m st st' ord text :
  AddLocale locale (Some m) st = Return None st' ->
  fst (GetFromLocale ord text locale st')
  = (default text (translation (Some m) text), None).
Proof.
  intros H.
  apply AddLocale_inv in H as (lang & local & a & g & HP & I & Hh & _).
  unfold GetFromLocale. rewrite HP. cbv zeta. rewrite I. simpl.
  rewrite Hh, lookup_insert_eq. simpl. rewrite lookup_insert_eq. simpl.
  destruct (m !! text) as [v|] eqn:E; simpl; [|reflexivity].
  destruct (decide (v = "")) as [->|Hv]; simpl; [reflexivity|].
  case_bool_decide; [contradiction|reflexivity].
Qed.

Lemma AddLocale_then_GetFromLocale_witness :
  let st' := examples.after (AddLocale "pt_PT" (Some {[ "bye" := "adeus" ]})
                               examples.initTestingContext) in
  AddLocale "pt_PT" (Some {[ "bye" := "adeus" ]}) examples.initTestingContext
  = Return None st' /\
  fst (GetFromLocale [] "hello" "pt_PT" st')
  = (default "hello" (translation (Some {[ "bye" := "adeus" ]}) "hello"), None).
Proof.
  intros st'.
  assert (H : AddLocale "pt_PT" (Some {[ "bye" := "adeus" ]})
                examples.initTestingContext = Return None st')
    by (vm_compute; reflexivity).
  split; [exact H|].
  exact (AddLocale_then_GetFromLocale "pt_PT" _ _ st' [] "hello" H).
Defined.

Lemma range_lookup_singleton text k (l : Locale) :
  range_lookup text [(k, l)] = translation l text.
Proof.
  simpl. case_bool_decide as H.
  - symmetry. apply translation_Some. auto.
  - symmetry. apply translation_None.
    destruct (decide (index "" l text = "")); [assumption|contradiction].
Qed.

(** X6. After a successful [AddLocale] for a language that had no group,
    [GetFromLocale] with any locale string of that language, whatever its
    region, returns the translation of the entries just added, or the key
    when they have none. *)
Theorem AddLocale_new_language locale locale' lang local local' tbl
  st st' ord text :
  parseLocaleString locale = inr (lang, local) ->
  index None (languages (ctx st)) lang = None ->
  AddLocale locale tbl st = Return None st' ->
  parseLocaleString locale' = inr (lang, local') ->
  range_of (deref (heap st') (index None (languages (ctx st')) lang)) ord ->
  fst (GetFromLocale ord text locale' st')
  = (default text (translation tbl text), None).
Proof.
  intros HP HN H HP' R.
  apply AddLocale_inv in H
    as (lang0 & local0 & a & g & HP0 & I & Hh & _ & _ & [(I0 & _)|(_ & -> & _)]);
    rewrite HP in HP0; injection HP0 as <- <-; [congruence|].
  rewrite I in R. unfold range_of, deref, entries in R.
  rewrite Hh, lookup_insert_eq, insert_empty in R. simpl in R.
  rewrite map_to_list_singleton in R. apply Permutation_singleton_r in R.
  subst ord.
  unfold GetFromLocale. rewrite HP'. cbv zeta. rewrite I. simpl.
  rewrite Hh, lookup_insert_eq, insert_empty. simpl.
  destruct (decide (local' = local)) as [->|Hne].
  - rewrite lookup_singleton_eq. simpl.
    destruct tbl as [m|]; simpl.
    + destruct (m !! text) as [v|] eqn:E; simpl; [|reflexivity].
      destruct (decide (v = "")) as [->|Hv]; simpl; [reflexivity|].
      case_bool_decide; [contradiction|reflexivity].
    + reflexivity.
  - rewrite lookup_singleton_ne by congruence. simpl.
    case_bool_decide as Hb.
    + assert (T : translation tbl text = Some (index "" tbl text))
        by (apply translation_Some; auto).
      rewrite T. reflexivity.
    + assert (T : translation tbl text = None).
      { apply translation_None.
        destruct (decide (index "" tbl text = "")); [assumption|contradiction]. }
      rewrite T. reflexivity.
Qed.

Lemma AddLocale_new_language_witness :
  let st := snd (Init examples.empty_state) in
  let st' := examples.initTestingContext in
  let ord := examples.listed st' (index None (languages (ctx st')) "pt") in
  parseLocaleString "pt_BR.UTF-8" = inr ("pt", "BR") /\
  index None (languages (ctx st)) "pt" = None /\
  AddLocale "pt_BR.UTF-8" examples.hello_pt st = Return None st' /\
  parseLocaleString "pt_PT" = inr ("pt", "PT") /\
  range_of (deref (heap st') (index None (languages (ctx st')) "pt")) ord /\
  fst (GetFromLocale ord "hello" "pt_PT" st')
  = (default "hello" (translation examples.hello_pt "hello"), None).
Proof.
  intros st st' ord.
  assert (HP : parseLocaleString "pt_BR.UTF-8" = inr ("pt", "BR"))
    by (vm_compute; reflexivity).
  assert (HN : index None (languages (ctx st)) "pt" = None)
    by (vm_compute; reflexivity).
  assert (H : AddLocale "pt_BR.UTF-8" examples.hello_pt st = Return None st')
    by (vm_compute; reflexivity).
  assert (HP' : parseLocaleString "pt_PT" = inr ("pt", "PT"))
    by (vm_compute; reflexivity).
  assert (R : range_of (deref (heap st') (index None (languages (ctx st')) "pt")) ord)
    by (unfold range_of; reflexivity).
  split; [exact HP|]. split; [exact HN|]. split; [exact H|].
  split; [exact HP'|]. split; [exact R|].
  exact (AddLocale_new_language "pt_BR.UTF-8" "pt_PT" "pt" "BR" "PT"
           examples.hello_pt st st' ord "hello" HP HN H HP' R).
Defined.

(** X7. After a successful [AddLocale] and [SetPreferedLocale] with the same
    locale string, [Get] returns the translation the entries give for a key,
    whatever the other tables of the language hold. *)
Theorem AddLocale_SetPreferedLocale_Get locale entries st st' ord text v :
  AddLocale locale entries st = Return None st' ->
  translation entries text = Some v ->
  fst (SetPreferedLocale locale st') = None /\
  fst (Get ord text (snd (SetPreferedLocale locale st'))) = v.
Proof.
  intros H T.
  apply AddLocale_inv in H as (lang & local & a & g & HP & I & Hh & _).
  unfold SetPreferedLocale. rewrite HP. cbv zeta. rewrite I. simpl.
  split; [reflexivity|].
  unfold Get. simpl. rewrite Hh, lookup_insert_eq. simpl.
  rewrite lookup_insert_eq. simpl.
  apply translation_Some in T as [T Hv].
  destruct entries as [m|]; [|simpl in T; congruence].
  rewrite T. case_bool_decide; [reflexivity|contradiction].
Qed.

Lemma AddLocale_SetPreferedLocale_Get_witness :
  let st := snd (Init examples.empty_state) in
  let st' := examples.initTestingContext in
  AddLocale "pt_BR.UTF-8" examples.hello_pt st = Return None st' /\
  translation examples.hello_pt "hello" = Some "olá" /\
  fst (SetPreferedLocale "pt_BR.UTF-8" st') = None /\
  fst (Get [] "hello" (snd (SetPreferedLocale "pt_BR.UTF-8" st'))) = "olá".
Proof.
  intros st st'.
  assert (H : AddLocale "pt_BR.UTF-8" examples.hello_pt st = Return None st')
    by (vm_compute; reflexivity).
  assert (T : translation examples.hello_pt "hello" = Some "olá")
    by (vm_compute; reflexivity).
  split; [exact H|]. split; [exact T|].
  exact (AddLocale_SetPreferedLocale_Get "pt_BR.UTF-8" examples.hello_pt st st'
           [] "hello" "olá" H T).
Defined.

(** X8. Last write wins: a second successful [AddLocale] with the same locale
    string leaves the state that this call alone would leave; nothing of
    the entries of the first call remains. *)
Theorem AddLocale_last_write_wins locale entries1 entries2 st st1 :
  AddLocale locale entries1 st = Return None st1 ->
  AddLocale locale entries2 st1 = AddLocale locale entries2 st.
Proof.
  unfold AddLocale.
  destruct (parseLocaleString locale) as [err|[lang local]]; [discriminate|].
  destruct (index None (languages (ctx st)) lang) as [a|] eqn:I.
  - intros [= <-]. simpl. rewrite I.
    rewrite lookup_insert_eq. simpl.
    rewrite !insert_insert_eq. reflexivity.
  - destruct (languages (ctx st)) as [langs|] eqn:L; [|discriminate].
    intros [= <-]. simpl. rewrite lookup_insert_eq. simpl.
    rewrite lookup_insert_eq. simpl.
    rewrite insert_singleton_eq, insert_insert_eq. reflexivity.
Qed.

Lemma AddLocale_last_write_wins_witness :
  let st1 := examples.after (AddLocale "pt_BR" (Some {[ "bye" := "tchau" ]})
                               examples.initTestingContext) in
  AddLocale "pt_BR" (Some {[ "bye" := "tchau" ]}) examples.initTestingContext
  = Return None st1 /\
  AddLocale "pt_BR" examples.hello_pt st1
  = AddLocale "pt_BR" examples.hello_pt examples.initTestingContext.
Proof.
  intros st1.
  assert (H : AddLocale "pt_BR" (Some {[ "bye" := "tchau" ]})
                examples.initTestingContext = Return None st1)
    by (vm_compute; reflexivity).
  split; [exact H|].
  exact (AddLocale_last_write_wins "pt_BR" _ examples.hello_pt
           examples.initTestingContext st1 H).
Defined.

Lemma allocated_insert_other h (l : Language) a g :
  h !! a = None -> allocated h l -> allocated (<[a := g]> h) l.
Proof.
  intros Ha Hl b ->. destruct (Hl b eq_refl) as (g' & Hg & Hne).
  exists g'. split; [|assumption].
  rewrite lookup_insert_ne; [assumption|]. congruence.
Qed.

Lemma allocated_insert_same h (l : Language) a (g : LanguageObj) k v :
  allocated h l -> allocated (<[a := <[k := v]> g]> h) l.
Proof.
  intros Hl b ->. destruct (Hl b eq_refl) as (g' & Hg & Hne).
  destruct (decide (a = b)) as [->|Hab].
  - eexists. rewrite lookup_insert_eq. split; [reflexivity|].
    apply insert_non_empty.
  - exists g'. rewrite lookup_insert_ne by assumption. auto.
Qed.

Lemma wf_zero : wf (mkstate ∅ zero_ctx).
Proof. split; [|split]; simpl; intros; discriminate. Qed.

Lemma wf_Init st : wf st -> wf (snd (Init st)).
Proof.
  intros (W1 & W2 & W3).
  split; [|split]; simpl; [intros lang a|intros ? ? ?|exact W3];
    rewrite lookup_empty; discriminate.
Qed.

Lemma wf_SetPreferedLocale st locale :
  wf st -> wf (snd (SetPreferedLocale locale st)).
Proof.
  intros (W1 & W2 & W3). unfold SetPreferedLocale.
  destruct (parseLocaleString locale) as [err|[lang local]];
    [repeat split; assumption|].
  simpl. split; [exact W1|]. split; [exact W2|]. apply W1.
Qed.

Lemma wf_AddLocale st locale tbl r st' :
  wf st -> AddLocale locale tbl st = Return r st' -> wf st'.
Proof.
  intros W H. pose proof W as (W1 & W2 & W3).
  destruct r as [err|].
  { unfold AddLocale in H.
    destruct (parseLocaleString locale) as [e|[lang local]];
      [injection H as _ <-; exact W|].
    destruct (index None (languages (ctx st)) lang);
      [discriminate|destruct (languages (ctx st)); discriminate]. }
  apply AddLocale_inv in H
    as (lang & local & a & g & HP & I & Hh & Hp & Hpl
        & [(I0 & -> & Hc)|(I0 & -> & Ha & langs & L & L')]).
  - unfold wf. rewrite Hc, Hh. split; [|split].
    + intros lang'. apply allocated_insert_same, W1.
    + exact W2.
    + apply allocated_insert_same, W3.
  - assert (Hidx : forall lang', index None (languages (ctx st')) lang'
                     = if decide (lang = lang') then Some a
                       else index None (languages (ctx st)) lang').
    { intros lang'. rewrite L', L. simpl. rewrite lookup_insert.
      destruct (decide (lang = lang')); reflexivity. }
    split; [|split].
    + intros lang'. rewrite Hidx, Hh. destruct (decide (lang = lang')).
      * intros b [= <-]. eexists. rewrite lookup_insert_eq.
        split; [reflexivity|]. apply insert_non_empty.
      * apply allocated_insert_other; [assumption|apply W1].
    + intros l1 l2 b. rewrite !Hidx.
      destruct (decide (lang = l1)), (decide (lang = l2)); try congruence.
      * intros [= <-] Hb. destruct (W1 l2 a Hb) as (? & ? & _). congruence.
      * intros Hb [= <-]. destruct (W1 l1 a Hb) as (? & ? & _). congruence.
      * apply W2.
    + rewrite Hpl, Hh. apply allocated_insert_other; assumption.
Qed.

(* The context of the tests is well formed. *)
Lemma wf_initTestingContext : wf examples.initTestingContext.
Proof.
  apply (wf_AddLocale (snd (Init (mkstate ∅ zero_ctx))) "pt_BR.UTF-8"
           examples.hello_pt None).
  - apply wf_Init, wf_zero.
  - vm_compute. reflexivity.
Qed.

(** X9. The methods keep the state well formed: every group the context
    refers to, from a language or as the preferred group, is allocated and
    has a region, and two languages never share a group.  The state before
    [Init] is well formed. *)
Theorem wf_invariant :
  wf (mkstate ∅ zero_ctx) /\
  forall st, wf st ->
    wf (snd (Init st)) /\
    (forall locale tbl r st', AddLocale locale tbl st = Return r st' -> wf st') /\
    (forall locale, wf (snd (SetPreferedLocale locale st))) /\
    (forall Getenv, wf (snd (AutoSetPreferedLocale Getenv st))).
Proof.
  split; [exact wf_zero|]. intros st W.
  split; [exact (wf_Init st W)|].
  split; [intros locale tbl r st'; exact (wf_AddLocale st locale tbl r st' W)|].
  split; [intros locale; exact (wf_SetPreferedLocale st locale W)|].
  intros Getenv. unfold AutoSetPreferedLocale.
  pose proof (wf_SetPreferedLocale st (Getenv "LC_ALL") W) as W'.
  destruct (SetPreferedLocale (Getenv "LC_ALL") st) as [[err|] st1];
    [apply wf_SetPreferedLocale|]; exact W'.
Qed.

Lemma wf_invariant_witness :
  let st := snd (Init (mkstate ∅ zero_ctx)) in
  wf (mkstate ∅ zero_ctx) /\
  AddLocale "pt_BR.UTF-8" examples.hello_pt st
  = Return None examples.initTestingContext /\
  wf examples.initTestingContext.
Proof.
  intros st.
  assert (H : AddLocale "pt_BR.UTF-8" examples.hello_pt st
              = Return None examples.initTestingContext)
    by (vm_compute; reflexivity).
  split; [exact (proj1 wf_invariant)|]. split; [exact H|].
  pose proof (proj2 wf_invariant _ (proj1 wf_invariant)) as [W _].
  exact (proj1 (proj2 (proj2 wf_invariant st W)) _ _ _ _ H).
Defined.

(** X10. In a well-formed state a successful [AddLocale] leaves the groups of
    the other languages as they were: [GetFromLocale] with a locale string
    of another language answers as before. *)
Theorem AddLocale_other_language locale locale' lang local lang' local' tbl
  st st' ord text :
  wf st ->
  AddLocale locale tbl st = Return None st' ->
  parseLocaleString locale = inr (lang, local) ->
  parseLocaleString locale' = inr (lang', local') ->
  lang' <> lang ->
  deref (heap st') (index None (languages (ctx st')) lang')
  = deref (heap st) (index None (languages (ctx st)) lang') /\
  fst (GetFromLocale ord text locale' st')
  = fst (GetFromLocale ord text locale' st).
Proof.
  intros (W1 & W2 & _) H HP HP' Hne.
  apply AddLocale_inv in H
    as (lang0 & local0 & a & g & HP0 & I & Hh & _ & _
        & [(I0 & -> & Hc)|(I0 & -> & Ha & langs & L & L')]);
    rewrite HP in HP0; injection HP0 as <- <-.
  - assert (D : deref (heap st') (index None (languages (ctx st')) lang')
                = deref (heap st) (index None (languages (ctx st)) lang')).
    { rewrite Hc, Hh.
      destruct (index None (languages (ctx st)) lang') as [b|] eqn:Ib;
        [|reflexivity].
      simpl. rewrite lookup_insert_ne; [reflexivity|].
      intros <-. apply Hne. eapply W2; eassumption. }
    split; [exact D|].
    unfold GetFromLocale. rewrite HP'. cbv zeta. rewrite D, Hc.
    repeat case_match; reflexivity.
  - assert (Il : index None (languages (ctx st')) lang'
                 = index None (languages (ctx st)) lang').
    { rewrite L', L. simpl. rewrite lookup_insert_ne by congruence.
      reflexivity. }
    assert (D : deref (heap st') (index None (languages (ctx st')) lang')
                = deref (heap st) (index None (languages (ctx st)) lang')).
    { rewrite Il, Hh.
      destruct (index None (languages (ctx st)) lang') as [b|] eqn:Ib;
        [|reflexivity].
      simpl. rewrite lookup_insert_ne; [reflexivity|].
      intros <-. destruct (W1 lang' a Ib) as (? & ? & _). congruence. }
    split; [exact D|].
    unfold GetFromLocale. rewrite HP'. cbv zeta. rewrite D, Il.
    repeat case_match; reflexivity.
Qed.

Lemma AddLocale_other_language_witness :
  let st := examples.initTestingContext in
  let tbl : Locale := Some {[ "hello" := "saluton" ]} in
  let st' := examples.after (AddLocale "eo_IN.UTF-8" tbl st) in
  let ord := examples.listed st (Some 1%positive) in
  wf st /\
  AddLocale "eo_IN.UTF-8" tbl st = Return None st' /\
  parseLocaleString "eo_IN.UTF-8" = inr ("eo", "IN") /\
  parseLocaleString "pt_PT" = inr ("pt", "PT") /\
  "pt" <> "eo" /\
  deref (heap st') (index None (languages (ctx st')) "pt")
  = deref (heap st) (index None (languages (ctx st)) "pt") /\
  fst (GetFromLocale ord "hello" "pt_PT" st')
  = fst (GetFromLocale ord "hello" "pt_PT" st).
Proof.
  intros st tbl st' ord.
  assert (W : wf st) by exact wf_initTestingContext.
  assert (H : AddLocale "eo_IN.UTF-8" tbl st = Return None st')
    by (vm_compute; reflexivity).
  assert (HP : parseLocaleString "eo_IN.UTF-8" = inr ("eo", "IN"))
    by (vm_compute; reflexivity).
  assert (HP' : parseLocaleString "pt_PT" = inr ("pt", "PT"))
    by (vm_compute; reflexivity).
  assert (Hne : "pt" <> "eo") by discriminate.
  split; [exact W|]. split; [exact H|]. split; [exact HP|].
  split; [exact HP'|]. split; [exact Hne|].
  exact (AddLocale_other_language "eo_IN.UTF-8" "pt_PT" "eo" "IN" "pt" "PT"
           tbl st st' ord "hello" W H HP HP' Hne).
Defined.

Lemma SetPreferedLocale_frame locale st :
  heap (snd (SetPreferedLocale locale st)) = heap st /\
  languages (ctx (snd (SetPreferedLocale locale st))) = languages (ctx st).
Proof.
  unfold SetPreferedLocale.
  destruct (parseLocaleString locale) as [err|[lang local]]; auto.
Qed.

Lemma GetFromLocale_depends ord text locale st st' :
  heap st' = heap st -> languages (ctx st') = languages (ctx st) ->
  fst (GetFromLocale ord text locale st') = fst (GetFromLocale ord text locale st).
Proof.
  intros Hh Hl. unfold GetFromLocale. rewrite Hh, Hl.
  repeat case_match; reflexivity.
Qed.

(** X11. Choosing a preferred locale changes neither the languages nor
    their groups: after [SetPreferedLocale] or [AutoSetPreferedLocale],
    successful or not, every [GetFromLocale] answers as before. *)
Theorem preference_keeps_lookups pref Getenv ord text locale st :
  fst (GetFromLocale ord text locale (snd (SetPreferedLocale pref st)))
  = fst (GetFromLocale ord text locale st) /\
  fst (GetFromLocale ord text locale (snd (AutoSetPreferedLocale Getenv st)))
  = fst (GetFromLocale ord text locale st).
Proof.
  split.
  - apply GetFromLocale_depends; apply SetPreferedLocale_frame.
  - unfold AutoSetPreferedLocale.
    destruct (SetPreferedLocale_frame (Getenv "LC_ALL") st) as [Hh Hl].
    destruct (SetPreferedLocale (Getenv "LC_ALL") st) as [[err|] st1];
      simpl in Hh, Hl.
    + destruct (SetPreferedLocale_frame (Getenv "LANG") st1) as [Hh' Hl'].
      apply GetFromLocale_depends; congruence.
    + apply GetFromLocale_depends; assumption.
Qed.

(** X12. [SetPreferedLocale] is idempotent, and when the language of its
    locale string has a group the state it leaves does not depend on the
    preference set before: the last call wins. *)
Theorem SetPreferedLocale_last_call_wins pref1 pref2 lang local st :
  snd (SetPreferedLocale pref2 (snd (SetPreferedLocale pref2 st)))
  = snd (SetPreferedLocale pref2 st) /\
  (parseLocaleString pref2 = inr (lang, local) ->
   index None (languages (ctx st)) lang <> None ->
   snd (SetPreferedLocale pref2 (snd (SetPreferedLocale pref1 st)))
   = snd (SetPreferedLocale pref2 st)).
Proof.
  split.
  - unfold SetPreferedLocale.
    destruct (parseLocaleString pref2) as [err|[l r]]; [reflexivity|].
    simpl. destruct (index None (languages (ctx st)) l); reflexivity.
  - intros HP HL. unfold SetPreferedLocale at 1 3. rewrite HP. cbv zeta.
    destruct (SetPreferedLocale_frame pref1 st) as [-> ->].
    destruct (index None (languages (ctx st)) lang); [reflexivity|contradiction].
Qed.

Lemma SetPreferedLocale_last_call_wins_witness :
  let st := examples.initTestingContext in
  parseLocaleString "pt_BR" = inr ("pt", "BR") /\
  index None (languages (ctx st)) "pt" <> None /\
  snd (SetPreferedLocale "pt_BR" (snd (SetPreferedLocale "en_US" st)))
  = snd (SetPreferedLocale "pt_BR" st).
Proof.
  intros st.
  assert (HP : parseLocaleString "pt_BR" = inr ("pt", "BR"))
    by (vm_compute; reflexivity).
  assert (HL : index None (languages (ctx st)) "pt" <> None)
    by (vm_compute; discriminate).
  split; [exact HP|]. split; [exact HL|].
  exact (proj2 (SetPreferedLocale_last_call_wins "en_US" "pt_BR" "pt" "BR" st)
           HP HL).
Defined.

(** X13. [Get] after [SetPreferedLocale] against [GetFromLocale] with the
    same locale string: the two agree when the language has no group, when
    the region has no table, and whenever [GetFromLocale] returns something
    else than the key. *)
Theorem Get_agrees_with_GetFromLocale locale lang local ord text st :
  parseLocaleString locale = inr (lang, local) ->
  index None (languages (ctx st)) lang = None \/
  index None (deref (heap st) (index None (languages (ctx st)) lang)) local
    = None \/
  fst (fst (GetFromLocale ord text locale st)) <> text ->
  fst (Get ord text (snd (SetPreferedLocale locale st)))
  = fst (fst (GetFromLocale ord text locale st)).
Proof.
  intros HP H. unfold SetPreferedLocale, GetFromLocale in *.
  rewrite HP in *. cbv zeta in *. unfold Get. simpl.
  destruct (index None (languages (ctx st)) lang) as [a|] eqn:I;
    [|reflexivity].
  simpl in *.
  destruct (default None (default ∅ (heap st !! a) !! local)) as [m|] eqn:T.
  - destruct H as [H|[H|H]]; try discriminate.
    repeat case_bool_decide; simpl in *;
      first [reflexivity | contradiction | congruence].
  - destruct (range_lookup text ord); reflexivity.
Qed.

Lemma Get_agrees_with_GetFromLocale_witness :
  let st := examples.initTestingContext in
  let ord := examples.listed st (Some 1%positive) in
  parseLocaleString "pt_PT" = inr ("pt", "PT") /\
  index None (deref (heap st) (index None (languages (ctx st)) "pt")) "PT"
    = None /\
  fst (Get ord "hello" (snd (SetPreferedLocale "pt_PT" st)))
  = fst (fst (GetFromLocale ord "hello" "pt_PT" st)).
Proof.
  intros st ord.
  assert (HP : parseLocaleString "pt_PT" = inr ("pt", "PT"))
    by (vm_compute; reflexivity).
  assert (H : index None (deref (heap st) (index None (languages (ctx st)) "pt"))
                "PT" = None) by (vm_compute; reflexivity).
  split; [exact HP|]. split; [exact H|].
  exact (Get_agrees_with_GetFromLocale "pt_PT" "pt" "PT" ord "hello" st HP
           (or_intror (or_introl H))).
Defined.

Lemma range_lookup_nonempty text ord v :
  range_lookup text ord = Some v -> v <> "".
Proof.
  intros H. apply range_lookup_Some in H as (? & ? & ? & ? & _ & _ & T).
  apply translation_Some in T. tauto.
Qed.

(** X14. A lookup never answers with the empty text for a key that is not
    empty: [Get] and [GetFromLocale] return the key or a translation that is
    not empty. *)
Theorem lookups_never_empty ord text locale st :
  text <> "" ->
  fst (Get ord text st) <> "" /\
  fst (fst (GetFromLocale ord text locale st)) <> "".
Proof.
  intros Ht. split.
  - unfold Get. destruct (preferedLang (ctx st)); [|exact Ht].
    assert (F : fst (match range_lookup text ord with
                     | Some localTxt => (localTxt, st)
                     | None => (text, st)
                     end) <> "").
    { destruct (range_lookup text ord) eqn:R; [|exact Ht].
      simpl. eapply range_lookup_nonempty, R. }
    cbv zeta. destruct (prefered (ctx st)); [|exact F].
    case_bool_decide; [assumption|exact F].
  - unfold GetFromLocale.
    destruct (parseLocaleString locale) as [err|[lang local]]; [exact Ht|].
    cbv zeta. destruct (index None (languages (ctx st)) lang); [|exact Ht].
    destruct (index None _ local).
    + case_bool_decide; [exact Ht|assumption].
    + destruct (range_lookup text ord) eqn:R; [|exact Ht].
      simpl. eapply range_lookup_nonempty, R.
Qed.

Lemma lookups_never_empty_witness :
  "hello" <> "" /\
  fst (Get [] "hello" examples.prefers_pt_BR) <> "" /\
  fst (fst (GetFromLocale [] "hello" "en_US" examples.prefers_pt_BR)) <> "".
Proof.
  assert (Ht : "hello" <> "") by discriminate.
  split; [exact Ht|].
  exact (lookups_never_empty [] "hello" "en_US" examples.prefers_pt_BR Ht).
Defined.

Lemma range_lookup_order (g : LanguageObj) ord1 ord2 text :
  range_of (Some g) ord1 -> range_of (Some g) ord2 ->
  single_valued g text ->
  range_lookup text ord1 = range_lookup text ord2.
Proof.
  intros R1 R2 SV.
  pose proof (range_lookup_spec g ord1 text R1) as S1.
  pose proof (range_lookup_spec g ord2 text R2) as S2.
  destruct (range_lookup text ord1) as [v1|], (range_lookup text ord2) as [v2|];
    try reflexivity.
  - destruct S1 as (? & k1 & l1 & ? & _ & _ & G1 & T1).
    destruct S2 as (? & k2 & l2 & ? & _ & _ & G2 & T2).
    f_equal. exact (SV k1 l1 v1 k2 l2 v2 G1 T1 G2 T2).
  - destruct S1 as (? & k1 & l1 & ? & _ & _ & G1 & T1).
    rewrite (S2 k1 l1 G1) in T1. discriminate.
  - destruct S2 as (? & k2 & l2 & ? & _ & _ & G2 & T2).
    rewrite (S1 k2 l2 G2) in T2. discriminate.
Qed.

(** X15. The order in which range visits a group does not matter when the
    tables of the group that translate the key agree: [Get] and
    [GetFromLocale] then return the same result for any two orders. *)
Theorem range_order_irrelevant (g : LanguageObj) ord1 ord2 text st :
  range_of (Some g) ord1 -> range_of (Some g) ord2 ->
  single_valued g text ->
  (deref (heap st) (preferedLang (ctx st)) = Some g ->
   Get ord1 text st = Get ord2 text st) /\
  (forall locale lang local,
     parseLocaleString locale = inr (lang, local) ->
     deref (heap st) (index None (languages (ctx st)) lang) = Some g ->
     GetFromLocale ord1 text locale st = GetFromLocale ord2 text locale st).
Proof.
  intros R1 R2 SV.
  pose proof (range_lookup_order g ord1 ord2 text R1 R2 SV) as E.
  split.
  - intros _. unfold Get. rewrite E. reflexivity.
  - intros locale lang local HP _. unfold GetFromLocale. rewrite HP, E.
    reflexivity.
Qed.

Lemma single_valued_const (g : LanguageObj) (t : Locale) text :
  map_Forall (fun _ l => l = t) g -> single_valued g text.
Proof.
  intros F k1 l1 v1 k2 l2 v2 G1 T1 G2 T2.
  rewrite (F k1 l1 G1) in T1. rewrite (F k2 l2 G2) in T2. congruence.
Qed.

Lemma range_order_irrelevant_witness :
  let st := snd (SetPreferedLocale "pt_BR"
              (examples.after (AddLocale "pt_PT" examples.hello_pt
                                 examples.initTestingContext))) in
  let g : LanguageObj :=
    <["PT" := examples.hello_pt]> {[ "BR" := examples.hello_pt ]} in
  let ord1 := [("BR", examples.hello_pt); ("PT", examples.hello_pt)] in
  let ord2 := [("PT", examples.hello_pt); ("BR", examples.hello_pt)] in
  range_of (Some g) ord1 /\ range_of (Some g) ord2 /\
  single_valued g "hello" /\
  deref (heap st) (preferedLang (ctx st)) = Some g /\
  Get ord1 "hello" st = Get ord2 "hello" st.
Proof.
  intros st g ord1 ord2.
  assert (R2 : range_of (Some g) ord2).
  { unfold range_of, entries, g.
    rewrite map_to_list_insert by (vm_compute; reflexivity).
    rewrite map_to_list_singleton. reflexivity. }
  assert (R1 : range_of (Some g) ord1).
  { unfold range_of in *. rewrite <- R2. apply perm_swap. }
  assert (SV : single_valued g "hello").
  { apply (single_valued_const g examples.hello_pt).
    unfold g. apply map_Forall_insert_2; [reflexivity|].
    apply map_Forall_singleton. reflexivity. }
  assert (D : deref (heap st) (preferedLang (ctx st)) = Some g)
    by (vm_compute; reflexivity).
  split; [exact R1|]. split; [exact R2|]. split; [exact SV|].
  split; [exact D|].
  exact (proj1 (range_order_irrelevant g ord1 ord2 "hello" st R1 R2 SV) D).
Defined.

(** X16. [AutoSetPreferedLocale] returns no error exactly when LC_ALL or
    LANG parses; when neither does it returns the error of LANG and leaves
    the state as it was. *)
Theorem AutoSetPreferedLocale_result Getenv st :
  (fst (AutoSetPreferedLocale Getenv st) = None <->
   (exists p, parseLocaleString (Getenv "LC_ALL") = inr p) \/
   (exists p, parseLocaleString (Getenv "LANG") = inr p)) /\
  (forall e1 e2,
     parseLocaleString (Getenv "LC_ALL") = inl e1 ->
     parseLocaleString (Getenv "LANG") = inl e2 ->
     AutoSetPreferedLocale Getenv st = (Some e2, st)).
Proof.
  unfold AutoSetPreferedLocale, SetPreferedLocale.
  destruct (parseLocaleString (Getenv "LC_ALL")) as [e1|[l1 r1]];
    destruct (parseLocaleString (Getenv "LANG")) as [e2|[l2 r2]]; simpl.
  - split.
    + split; [discriminate|]. intros [[p H]|[p H]]; discriminate.
    + intros ? ? [= <-] [= <-]. reflexivity.
  - split; [|discriminate]. split; eauto.
  - split; [|discriminate]. split; eauto.
  - split; [|discriminate]. split; eauto.
Qed.

Lemma AutoSetPreferedLocale_result_witness :
  let Getenv := fun v : string => if String.eqb v "LANG" then "C" else "" in
  parseLocaleString (Getenv "LC_ALL") = inl io_EOF /\
  parseLocaleString (Getenv "LANG") = inl io_ErrUnexpectedEOF /\
  AutoSetPreferedLocale Getenv examples.prefers_pt_BR
  = (Some io_ErrUnexpectedEOF, examples.prefers_pt_BR).
Proof.
  intros Getenv.
  assert (H1 : parseLocaleString (Getenv "LC_ALL") = inl io_EOF)
    by (vm_compute; reflexivity).
  assert (H2 : parseLocaleString (Getenv "LANG") = inl io_ErrUnexpectedEOF)
    by (vm_compute; reflexivity).
  split; [exact H1|]. split; [exact H2|].
  exact (proj2 (AutoSetPreferedLocale_result Getenv examples.prefers_pt_BR)
           _ _ H1 H2).
Defined.

(** X17. [Init] on a context in use drops every language, so that
    [GetFromLocale] returns the key for every locale string, and keeps the
    preferred group and table, so that [Get] answers as before. *)
Theorem Init_again ord text locale st :
  fst (fst (GetFromLocale ord text locale (snd (Init st)))) = text /\
  fst (Get ord text (snd (Init st))) = fst (Get ord text st).
Proof.
  split.
  - unfold GetFromLocale, Init. simpl.
    destruct (parseLocaleString locale) as [err|[lang local]]; [reflexivity|].
    rewrite lookup_empty. reflexivity.
  - unfold Get, Init. simpl. repeat case_match; reflexivity.
Qed.

(** X18. A successful [AddLocale] leaves the two preferred references of the
    context, the preferred table and the preferred group, as they were.  So
    when a preferred group is set and the preferred table holds a non-empty
    value for a key, [Get] returns that value before and after the call, also
    when the call replaces the table of the preferred locale; and when no
    preferred group is set, [Get] returns the key before and after the
    call, whatever the preferred table holds. *)
Theorem AddLocale_keeps_preferred_table locale tbl st st' ord text v :
  AddLocale locale tbl st = Return None st' ->
  prefered (ctx st') = prefered (ctx st) /\
  preferedLang (ctx st') = preferedLang (ctx st) /\
  (preferedLang (ctx st) <> None ->
   translation (prefered (ctx st)) text = Some v ->
   fst (Get ord text st) = v /\ fst (Get ord text st') = v) /\
  (preferedLang (ctx st) = None ->
   fst (Get ord text st) = text /\ fst (Get ord text st') = text).
Proof.
  intros H.
  apply AddLocale_inv in H as (lang & local & a & g & _ & _ & _ & Hp & Hpl & _).
  split; [exact Hp|]. split; [exact Hpl|]. split.
  - intros HL T. apply translation_Some in T as [T Hv].
    unfold Get. rewrite Hp, Hpl.
    destruct (preferedLang (ctx st)); [|contradiction].
    destruct (prefered (ctx st)) as [m|]; [|simpl in T; congruence].
    rewrite T. case_bool_decide; [auto|contradiction].
  - intros HL. unfold Get. rewrite Hpl, HL. auto.
Qed.

Lemma AddLocale_keeps_preferred_table_witness :
  let st := examples.prefers_pt_BR in
  let tbl : Locale := Some {[ "hello" := "oi" ]} in
  let st' := examples.after (AddLocale "pt_BR" tbl st) in
  AddLocale "pt_BR" tbl st = Return None st' /\
  preferedLang (ctx st) <> None /\
  translation (prefered (ctx st)) "hello" = Some "olá" /\
  fst (fst (GetFromLocale [] "hello" "pt_BR" st')) = "oi" /\
  prefered (ctx st') = prefered (ctx st) /\
  preferedLang (ctx st') = preferedLang (ctx st) /\
  fst (Get [] "hello" st) = "olá" /\ fst (Get [] "hello" st') = "olá".
Proof.
  intros st tbl st'.
  assert (H : AddLocale "pt_BR" tbl st = Return None st')
    by (vm_compute; reflexivity).
  assert (HL : preferedLang (ctx st) <> None) by (vm_compute; discriminate).
  assert (T : translation (prefered (ctx st)) "hello" = Some "olá")
    by (vm_compute; reflexivity).
  split; [exact H|]. split; [exact HL|]. split; [exact T|].
  split; [vm_compute; reflexivity|].
  destruct (AddLocale_keeps_preferred_table "pt_BR" tbl st st' [] "hello" "olá"
              H) as (Hp & Hpl & HG & _).
  split; [exact Hp|]. split; [exact Hpl|]. exact (HG HL T).
Defined.

(** X19. The preferred group is the group of its language itself, not a copy:
    when the preferred table and the group have no translation of a key, a
    successful [AddLocale] of a region of that language whose entries
    translate the key makes [Get] return that translation. *)
Theorem AddLocale_reaches_preferred_group locale lang local tbl st st'
  ord ord' text v a :
  preferedLang (ctx st) = Some a ->
  index None (languages (ctx st)) lang = Some a ->
  translation (prefered (ctx st)) text = None ->
  no_match (default ∅ (heap st !! a)) text ->
  parseLocaleString locale = inr (lang, local) ->
  translation tbl text = Some v ->
  AddLocale locale tbl st = Return None st' ->
  range_of (deref (heap st) (preferedLang (ctx st))) ord ->
  range_of (deref (heap st') (preferedLang (ctx st'))) ord' ->
  fst (Get ord text st) = text /\ fst (Get ord' text st') = v.
Proof.
  intros HL I Tp NM HP T H R R'.
  apply AddLocale_inv in H
    as (lang0 & local0 & a0 & g & HP0 & I' & Hh & Hp & Hpl
        & [(I0 & -> & Hc)|(I0 & _)]);
    rewrite HP in HP0; injection HP0 as <- <-; [|congruence].
  assert (a0 = a) as -> by congruence.
  apply translation_None in Tp.
  assert (Fb : forall o : list (string * Locale),
            fst (Get o text st) = default text (range_lookup text o)
            /\ fst (Get o text st') = default text (range_lookup text o)).
  { intros o. unfold Get. rewrite Hp, Hpl, HL.
    destruct (prefered (ctx st)) as [m|].
    - rewrite Tp. case_bool_decide; [contradiction|].
      destruct (range_lookup text o); auto.
    - destruct (range_lookup text o); auto. }
  rewrite HL in R. simpl in R.
  rewrite Hpl, HL in R'. simpl in R'. rewrite Hh, lookup_insert_eq in R'.
  simpl in R'.
  split.
  - rewrite (proj1 (Fb ord)).
    pose proof (range_lookup_spec _ ord text R) as S.
    destruct (range_lookup text ord) as [w|]; [|reflexivity].
    destruct S as (? & k & l & ? & _ & _ & G & Tl).
    rewrite (NM k l G) in Tl. discriminate.
  - rewrite (proj2 (Fb ord')).
    pose proof (range_lookup_spec _ ord' text R') as S.
    destruct (range_lookup text ord') as [w|].
    + destruct S as (? & k & l & ? & _ & _ & G & Tl). simpl.
      destruct (decide (k = local)) as [->|Hk].
      * rewrite lookup_insert_eq in G. congruence.
      * rewrite lookup_insert_ne in G by congruence.
        rewrite (NM k l G) in Tl. discriminate.
    + exfalso. specialize (S local tbl). rewrite lookup_insert_eq in S.
      rewrite S in T; [discriminate|reflexivity].
Qed.

Lemma no_match_const (g : LanguageObj) (t : Locale) text :
  map_Forall (fun _ l => l = t) g -> translation t text = None ->
  no_match g text.
Proof. intros F T k l G. rewrite (F k l G). exact T. Qed.

Lemma AddLocale_reaches_preferred_group_witness :
  let st := examples.prefers_pt_PT in
  let tbl : Locale := Some {[ "bye" := "adeus" ]} in
  let st' := examples.after (AddLocale "pt_PT" tbl st) in
  let ord := examples.listed st (preferedLang (ctx st)) in
  let ord' := examples.listed st' (preferedLang (ctx st')) in
  preferedLang (ctx st) = Some 1%positive /\
  index None (languages (ctx st)) "pt" = Some 1%positive /\
  translation (prefered (ctx st)) "bye" = None /\
  no_match (default ∅ (heap st !! 1%positive)) "bye" /\
  parseLocaleString "pt_PT" = inr ("pt", "PT") /\
  translation tbl "bye" = Some "adeus" /\
  AddLocale "pt_PT" tbl st = Return None st' /\
  range_of (deref (heap st) (preferedLang (ctx st))) ord /\
  range_of (deref (heap st') (preferedLang (ctx st'))) ord' /\
  fst (Get ord "bye" st) = "bye" /\ fst (Get ord' "bye" st') = "adeus".
Proof.
  intros st tbl st' ord ord'.
  assert (HL : preferedLang (ctx st) = Some 1%positive)
    by (vm_compute; reflexivity).
  assert (I : index None (languages (ctx st)) "pt" = Some 1%positive)
    by (vm_compute; reflexivity).
  assert (Tp : translation (prefered (ctx st)) "bye" = None)
    by (vm_compute; reflexivity).
  assert (NM : no_match (default ∅ (heap st !! 1%positive)) "bye").
  { apply (no_match_const _ examples.hello_pt); [|vm_compute; reflexivity].
    change (default ∅ (heap st !! 1%positive))
      with ({[ "BR" := examples.hello_pt ]} : LanguageObj).
    apply map_Forall_singleton. reflexivity. }
  assert (HP : parseLocaleString "pt_PT" = inr ("pt", "PT"))
    by (vm_compute; reflexivity).
  assert (T : translation tbl "bye" = Some "adeus")
    by (vm_compute; reflexivity).
  assert (H : AddLocale "pt_PT" tbl st = Return None st')
    by (vm_compute; reflexivity).
  assert (R : range_of (deref (heap st) (preferedLang (ctx st))) ord)
    by (unfold range_of; reflexivity).
  assert (R' : range_of (deref (heap st') (preferedLang (ctx st'))) ord')
    by (unfold range_of; reflexivity).
  repeat (split; [assumption|]).
  exact (AddLocale_reaches_preferred_group "pt_PT" "pt" "PT" tbl st st'
           ord ord' "bye" "adeus" 1%positive HL I Tp NM HP T H R R').
Defined.
